(** * telegram_beautifier: a shallow embedding of the relay bot

    The development follows [telegram_beautifier.py]: Python strings first
    (the correlation marker is parsed with [str.split] and [str.strip]), then
    the world the handlers act on (the two tables, the Telegram API, the
    socket, the log, the clock), then the handlers themselves in an
    exception/state monad, and finally the properties. *)

From Stdlib Require Import ZArith NArith List String Ascii Sorting.Sorted.
From Stdlib Require Import Numbers.DecimalString.
From Stdlib Require Numbers.DecimalZ.
From stdpp Require Import base option list gmap sorting.

Set Default Proof Using "Type".
Open Scope Z_scope.

(** ** Python strings

    A [str] is a sequence of Unicode code points. *)

Abbreviation str := (list N).

(** An ASCII literal of the source. *)
Definition lit (s : string) : str := N_of_ascii <$> list_ascii_of_string s.

(** [s.startswith(sep)] *)
Fixpoint startswith (sep s : str) : bool :=
  match sep, s with
  | [], _ => true
  | _ :: _, [] => false
  | a :: sep', b :: s' => (a =? b)%N && startswith sep' s'
  end.

(** [s.find(sep)]: the index of the first occurrence, [None] for Python's -1. *)
Fixpoint find (sep s : str) {struct s} : option nat :=
  if startswith sep s then Some 0%nat
  else match s with
       | [] => None
       | _ :: s' => S <$> find sep s'
       end.

(** [sep in s] *)
Definition contains (sep s : str) : bool :=
  match find sep s with Some _ => true | None => false end.

(** [s.split(sep)] for a non-empty [sep] (Python raises [ValueError] on an
    empty one; every separator of the source is a non-empty literal).  Each
    round consumes the separator, so [length s] rounds always suffice. *)
Fixpoint split_fuel (fuel : nat) (sep s : str) : list str :=
  match find sep s, fuel with
  | Some i, S fuel' =>
      take i s :: split_fuel fuel' sep (drop (i + length sep) s)
  | _, _ => [s]
  end.

Definition split (sep s : str) : list str := split_fuel (length s) sep s.

(** [str.isspace] on one code point (CPython's [_PyUnicode_IsWhitespace]). *)
Definition isspace (c : N) : bool :=
  ((9 <=? c) && (c <=? 13) || (28 <=? c) && (c <=? 32)
   || (c =? 0x85) || (c =? 0xA0) || (c =? 0x1680)
   || (0x2000 <=? c) && (c <=? 0x200A)
   || (c =? 0x2028) || (c =? 0x2029) || (c =? 0x202F) || (c =? 0x205F)
   || (c =? 0x3000))%N.

Fixpoint lstrip (s : str) : str :=
  match s with
  | c :: s' => if isspace c then lstrip s' else s
  | [] => []
  end.

Definition rstrip (s : str) : str := reverse (lstrip (reverse s)).

(** [s.strip()] *)
Definition strip (s : str) : str := rstrip (lstrip s).

(** [str(n)] for an [int]. *)
Definition str_of_int (n : Z) : str := lit (NilEmpty.string_of_int (Z.to_int n)).

(** The literals of the source that are not ASCII, by code point. *)
Definition lit_user : str := [0x7528; 0x6237; 0x20]%N.                    (* "用户 " *)
Definition lit_sent_text : str :=
  [0x20; 0x53D1; 0x6765; 0x6D88; 0x606F; 0x3A; 0x0A]%N.                   (* " 发来消息:\n" *)
Definition lit_sent_photo : str :=
  [0x20; 0x53D1; 0x6765; 0x56FE; 0x7247; 0x3A; 0x20]%N.                   (* " 发来图片: " *)
Definition lit_picture : str := [0x5B; 0x56FE; 0x7247; 0x5D; 0x20]%N.     (* "[图片] " *)


(** ** Configuration ([config.json]) *)

Record Config := {
  BOT_TOKEN : str;
  SECURE_TOKEN : str;
  FORWARD_TO_ID : str;
  WELCOME_MESSAGE : str;
  COOLDOWN_HOURS : Z
}.

(** ** Data model *)

(** Instants ([datetime]) are counted in microseconds from
    0001-01-01T00:00:00, the least [datetime]; durations ([timedelta]) in
    microseconds. *)
Definition timedelta_hours (h : Z) : Z := h * 3600000000.

(** [timedelta(hours=h)] exists when its day count, the floor of [h / 24],
    has magnitude at most 999999999; otherwise the constructor raises
    [OverflowError]. *)
Definition timedelta_ok (h : Z) : bool :=
  (-999999999 <=? h / 24) && (h / 24 <=? 999999999).

Definition timedelta_of_hours (h : Z) : option Z :=
  if timedelta_ok h then Some (timedelta_hours h) else None.

(** The greatest [datetime], 9999-12-31T23:59:59.999999 (day 3652059). *)
Definition DATETIME_MAX : Z := 3652059 * 86400000000 - 1.

Definition datetime_ok (t : Z) : bool := (0 <=? t) && (t <=? DATETIME_MAX).

(** [d + delta] on a [datetime]: [None] stands for the [OverflowError] of
    a result outside the years 1 to 9999. *)
Definition datetime_add (d delta : Z) : option Z :=
  if datetime_ok (d + delta) then Some (d + delta) else None.

(** [format_datetime]: the instant shifted to UTC+8; the [strftime]
    rendering of the shifted instant is left out.  It is applied to
    instants just read from the clock, taken to lie more than eight hours
    before [DATETIME_MAX]. *)
Definition format_datetime (value : Z) : Z := value + timedelta_hours 8.

(** A row of the [Message] table (the surrogate key is the position in the
    table). *)
Record Message := {
  sender_id : str;
  sender_name : str;
  text : str;
  timestamp : Z;
  media_type : option str;
  media_url : option str
}.

(** A chat identifier as it travels in JSON: the webhook delivers integers,
    the configuration and the correlator produce strings. *)
Inductive ident := IdInt (n : Z) | IdStr (s : str).

(** The Telegram update delivered to the webhook. *)
Record PhotoSize := { file_id : str }.
Record Chat := { chat_id : Z; first_name : option str; chat_type : option str }.
(** The value under [reply_to_message]: its two keys the correlator reads,
    and whether the object has any other key ([message_id], [date], ...;
    Telegram always sends some).  A value with no key at all stands for the
    empty object and for [null]. *)
Record Quoted := { q_caption : option str; q_text : option str; q_other_keys : bool }.
Record TgMessage := {
  m_chat : Chat;
  m_text : option str;
  m_photo : option (list PhotoSize);
  m_caption : option str;
  m_reply_to_message : option Quoted
}.
Record Update := { u_message : option TgMessage }.

(** The [send_message] payload of the dashboard socket. *)
Record SendData := {
  d_secure_token : option str;
  d_sender_id : option str;
  d_text : option str
}.

(** Calls to the Telegram API and their outcome. *)
Inductive Request :=
| GetFile (file : str)
| SendMessage (chat : ident) (body : str)
| SendPhoto (chat : ident) (photo : str) (caption : str).

Inductive Response := HttpFail | HttpOk (file_path : option str).

(** Socket events; [to_all] is false for [broadcast=False]. *)
Inductive Event :=
| new_message (sender : ident) (name body : str) (shown_at : Z)
| error (description : str).
Record Emit := { event : Event; to_all : bool }.

(** Exceptions by class; [SQLAlchemyError] stands for the class and its
    subclasses. *)
Inductive Exn :=
| HTTPError | SQLAlchemyError | IndexError | KeyError | OverflowError.

(** One constructor per [logging] call of the source. *)
Inductive Level := DEBUG | INFO | WARNING | ERROR.
Inductive LogMsg :=
| Webhook_received_data (data : Update)
| Received_data_for_sending_message (data : SendData)
| Invalid_secure_token_received
| Invalid_data_received_for_sending_message
| Message_sent_successfully_to_user (chat : str)
| Error_sending_message (e : Exn)
| Handling_customer_service_reply (message : TgMessage)
| No_reply_to_message_found
| No_user_ID_found_in_original_message
| Identified_target_user_ID (target : str)
| Successfully_handled_customer_service_reply (target : str)
| Error_handling_customer_service_reply (e : Exn)
| Sent_auto_reply_to_user (chat : Z)
| Error_sending_auto_reply (e : Exn)
| Successfully_handled_photo_message (chat : Z)
| Error_handling_photo_message (e : Exn)
| Error_getting_file_info (e : Exn)
| Error_sending_message_to_Telegram (e : Exn)
| Error_sending_photo_to_Telegram (e : Exn).

(** ** The world

    The two tables, the traces of what left the process, and the
    environment: [net], [db_ok] and [clock] give the outcome of the next
    HTTP call, of the next commit and of the next clock reading at index 0,
    and are shifted by one each time they are consulted.

    The store session is either usable, with the outcomes of its next
    commits, or in pending rollback, where a failed commit leaves it: the
    program never calls [rollback], so from then on every commit and every
    query of the session raises. *)
Inductive Session :=
| Usable (outcomes : nat -> bool)
| PendingRollback.

Definition commits (s : Session) : nat -> bool :=
  match s with
  | Usable outcomes => outcomes
  | PendingRollback => fun _ => false
  end.

Definition rolled_back (s : Session) : bool :=
  match s with
  | Usable _ => false
  | PendingRollback => true
  end.

Record World := mkWorld {
  messages : list Message;
  auto_replies : gmap str (option Z);   (* user_id |-> last_auto_reply *)
  wire : list (Request * Response);
  emitted : list Emit;
  log : list (Level * LogMsg);
  net : nat -> Response;
  session : Session;
  clock : nat -> Z
}.

(** [db_ok w i]: the commit number [i] from now succeeds. *)
Abbreviation db_ok w := (commits (session w)).
Abbreviation pending_rollback w := (rolled_back (session w)).

Definition shift {A} (f : nat -> A) : nat -> A := fun i => f (S i).

(** ** Exceptions and state *)

Inductive Res (A : Type) := Ok (a : A) | Raise (e : Exn).
Arguments Ok {A} a.
Arguments Raise {A} e.

Definition M (A : Type) : Type := World -> Res A * World.

Definition ret {A} (a : A) : M A := fun w => (Ok a, w).
Definition raise {A} (e : Exn) : M A := fun w => (Raise e, w).
Definition bind {A B} (m : M A) (k : A -> M B) : M B :=
  fun w => match m w with
           | (Ok a, w') => k a w'
           | (Raise e, w') => (Raise e, w')
           end.
Definition try_except {A} (m : M A) (handler : Exn -> M A) : M A :=
  fun w => match m w with
           | (Ok a, w') => (Ok a, w')
           | (Raise e, w') => handler e w'
           end.

Notation "x <- m ;; k" := (bind m (fun x => k))
  (at level 100, m at next level, right associativity).
Notation "m ;; k" := (bind m (fun _ => k))
  (at level 100, right associativity).

(** [datetime.utcnow()] *)
Definition utcnow : M Z := fun w =>
  (Ok (clock w 0%nat),
   mkWorld (messages w) (auto_replies w) (wire w) (emitted w) (log w)
           (net w) (session w) (shift (clock w))).

Definition logging (lvl : Level) (msg : LogMsg) : M unit := fun w =>
  (Ok tt,
   mkWorld (messages w) (auto_replies w) (wire w) (emitted w)
           (log w ++ [(lvl, msg)]) (net w) (session w) (clock w)).

(** [socketio.emit] reaches every session; [emit] takes [broadcast]. *)
Definition emit (e : Event) (broadcast : bool) : M unit := fun w =>
  (Ok tt,
   mkWorld (messages w) (auto_replies w) (wire w)
           (emitted w ++ [{| event := e; to_all := broadcast |}])
           (log w) (net w) (session w) (clock w)).
Definition socketio_emit (e : Event) : M unit := emit e true.

(** [requests.post] followed by [raise_for_status] and [json()]. *)
Definition requests_post (r : Request) : M (option str) := fun w =>
  let w' := mkWorld (messages w) (auto_replies w) (wire w ++ [(r, net w 0%nat)])
                    (emitted w) (log w) (shift (net w)) (session w) (clock w) in
  match net w 0%nat with
  | HttpOk file_path => (Ok file_path, w')
  | HttpFail => (Raise HTTPError, w')
  end.

(** [db.session.add(row); db.session.commit()].  A commit that fails
    leaves the tables as they were and the session in pending rollback; in
    a session in pending rollback, where [db_ok] is constantly false, the
    commit raises at once ([PendingRollbackError], a [SQLAlchemyError]). *)
Definition commit (msgs : list Message) (recs : gmap str (option Z)) : M unit :=
  fun w =>
  if db_ok w 0%nat then
    (Ok tt, mkWorld msgs recs (wire w) (emitted w) (log w) (net w)
                    (Usable (shift (db_ok w))) (clock w))
  else
    (Raise SQLAlchemyError,
     mkWorld (messages w) (auto_replies w) (wire w) (emitted w) (log w) (net w)
             PendingRollback (clock w)).

Definition add_message (row : Message) : M unit := fun w =>
  commit (messages w ++ [row]) (auto_replies w) w.

(** [UserAutoReply.query.filter_by(user_id=user_id).first()]; in a session
    in pending rollback the query raises ([PendingRollbackError], a
    [SQLAlchemyError]). *)
Definition query_auto_reply (user_id : str) : M (option (option Z)) := fun w =>
  if pending_rollback w then (Raise SQLAlchemyError, w)
  else (Ok (auto_replies w !! user_id), w).

(** ** The reply correlator (lines 218-224 of the source) *)

Definition ID_token : str := Eval cbv in lit "ID:".
Definition close_paren : str := Eval cbv in lit ")".

(** [bool(reply_to_message)]: an object is falsy when it has no key. *)
Definition truthy (reply_to_message : Quoted) : bool :=
  match q_caption reply_to_message, q_text reply_to_message with
  | None, None => q_other_keys reply_to_message
  | _, _ => true
  end.

(** [reply_to_message.get('caption', '') or reply_to_message.get('text', '')] *)
Definition original_text (reply_to_message : Quoted) : str :=
  match default [] (q_caption reply_to_message) with
  | [] => default [] (q_text reply_to_message)
  | caption => caption
  end.

(** [original_text.split('ID:')[1].split(')')[0].strip()]; [None] stands for
    the [IndexError] of an index out of range. *)
Definition target_user_id (original_text : str) : option str :=
  after ← split ID_token original_text !! 1%nat;
  inner ← split close_paren after !! 0%nat;
  Some (strip inner).

(** The f-strings that carry the correlation marker (lines 296 and 313). *)
Definition forward_text (sender_name chat text : str) : str :=
  lit_user ++ sender_name ++ lit " (ID: " ++ chat ++ lit ")" ++ lit_sent_text ++ text.

Definition forward_caption (sender_name chat caption : str) : str :=
  lit_user ++ sender_name ++ lit " (ID: " ++ chat ++ lit ")" ++ lit_sent_photo ++ caption.

(** ** The dashboard page (lines 122-130)

    [ORDER BY timestamp DESC] fixes the result only up to the order of rows
    with equal timestamps: any descending arrangement of the table is a
    possible answer of the store. *)
Definition newer_first (a b : Message) : Prop := timestamp b <= timestamp a.

Definition order_by_timestamp_desc (table result : list Message) : Prop :=
  result ≡ₚ table /\ StronglySorted newer_first result.

(** One such arrangement, by insertion. *)
Fixpoint insert_desc (m : Message) (l : list Message) : list Message :=
  match l with
  | [] => [m]
  | x :: l' => if timestamp x <=? timestamp m then m :: l else x :: insert_desc m l'
  end.
Definition sort_desc (table : list Message) : list Message :=
  foldr insert_desc [] table.

Inductive Page := Forbidden | Display (shown : list Message).

(** [.limit(n).all()] followed by [messages.reverse()]. *)
Definition window (n : nat) (result : list Message) : list Message :=
  reverse (take n result).

Section Relay.

Variable cfg : Config.

(** [home], given the answer of the store to the ordered query. *)
Definition home (token : option str) (result : list Message) : Page :=
  if bool_decide (token ≠ Some (SECURE_TOKEN cfg)) then Forbidden
  else Display (window 5000 result).

(** ** The outbound channel (lines 340-386) *)

Definition get_telegram_file_info (file : str) : M (option str) :=
  try_except (requests_post (GetFile file))
             (fun e => logging ERROR (Error_getting_file_info e) ;; raise e).

Definition send_message_to_telegram (chat : ident) (body : str) : M unit :=
  try_except (requests_post (SendMessage chat body) ;; ret tt)
             (fun e => logging ERROR (Error_sending_message_to_Telegram e) ;; raise e).

Definition send_photo_to_telegram (chat : ident) (file caption : str) : M unit :=
  try_except (requests_post (SendPhoto chat file caption) ;; ret tt)
             (fun e => logging ERROR (Error_sending_photo_to_Telegram e) ;; raise e).

(** [f"https://api.telegram.org/file/bot{BOT_TOKEN}/{file_info['file_path']}"] *)
Definition file_url_of (file_info : option str) : M str :=
  match file_info with
  | Some file_path =>
      ret (lit "https://api.telegram.org/file/bot" ++ BOT_TOKEN cfg ++ lit "/" ++ file_path)
  | None => raise KeyError
  end.

(** [message['photo'][-1]] *)
Definition last_photo (photos : list PhotoSize) : M PhotoSize :=
  match last photos with
  | Some photo => ret photo
  | None => raise IndexError
  end.

(** ** The auto-reply gate (lines 67-120) *)

(** [user_record.last_auto_reply + timedelta(hours=COOLDOWN_HOURS)];
    [None] stands for the [OverflowError] of either operation. *)
Definition cooldown_time (last_auto_reply : Z) : option Z :=
  delta ← timedelta_of_hours (COOLDOWN_HOURS cfg);
  datetime_add last_auto_reply delta.

Definition should_send_auto_reply (user_id : str) : M bool :=
  user_record <- query_auto_reply user_id ;;
  match user_record with
  | None => ret true
  | Some None => ret true
  | Some (Some last_auto_reply) =>
      cooldown_time <- match cooldown_time last_auto_reply with
                       | Some instant => ret instant
                       | None => raise OverflowError
                       end ;;
      now <- utcnow ;;
      ret (cooldown_time <? now)
  end.

Definition update_auto_reply_record (user_id : str) : M unit :=
  _user_record <- query_auto_reply user_id ;;
  now <- utcnow ;;
  fun w => commit (messages w) (<[user_id := Some now]> (auto_replies w)) w.

Definition handle_auto_reply (chat : Z) : M unit :=
  if bool_decide (str_of_int chat ≠ FORWARD_TO_ID cfg) then
    fire <- should_send_auto_reply (str_of_int chat) ;;
    if fire : bool then
      try_except
        (send_message_to_telegram (IdInt chat) (WELCOME_MESSAGE cfg) ;;
         update_auto_reply_record (str_of_int chat) ;;
         now <- utcnow ;;
         add_message {| sender_id := BOT_TOKEN cfg; sender_name := lit "Bot";
                        text := WELCOME_MESSAGE cfg; timestamp := now;
                        media_type := None; media_url := None |} ;;
         socketio_emit (new_message (IdStr (BOT_TOKEN cfg)) (lit "Bot")
                                    (WELCOME_MESSAGE cfg) (format_datetime now)) ;;
         logging INFO (Sent_auto_reply_to_user chat))
        (fun e => logging ERROR (Error_sending_auto_reply e))
    else ret tt
  else ret tt.

(** ** Relaying user messages (lines 285-338) *)

Definition handle_text_message (chat : Z) (sender_name text : str) : M unit :=
  now <- utcnow ;;
  add_message {| sender_id := str_of_int chat; sender_name := sender_name;
                 text := text; timestamp := now;
                 media_type := None; media_url := None |} ;;
  send_message_to_telegram (IdStr (FORWARD_TO_ID cfg))
                           (forward_text sender_name (str_of_int chat) text) ;;
  socketio_emit (new_message (IdInt chat) sender_name text (format_datetime now)).

Definition handle_photo_message (chat : Z) (sender_name file caption : str) : M unit :=
  try_except
    (file_info <- get_telegram_file_info file ;;
     file_url <- file_url_of file_info ;;
     send_photo_to_telegram (IdStr (FORWARD_TO_ID cfg)) file
                            (forward_caption sender_name (str_of_int chat) caption) ;;
     now <- utcnow ;;
     add_message {| sender_id := str_of_int chat; sender_name := sender_name;
                    text := lit_picture ++ file_url ++ lit " " ++ caption;
                    timestamp := now;
                    media_type := Some (lit "photo"); media_url := Some file_url |} ;;
     socketio_emit (new_message (IdInt chat) sender_name
                                (lit_picture ++ file_url ++ lit " " ++ caption)
                                (format_datetime now)) ;;
     logging INFO (Successfully_handled_photo_message chat))
    (fun e => logging ERROR (Error_handling_photo_message e)).

(** ** Relaying operator replies (lines 209-283) *)

Definition handle_customer_service_reply (message : TgMessage) : M unit :=
  logging DEBUG (Handling_customer_service_reply message) ;;
  match m_reply_to_message message with
  | None => logging ERROR No_reply_to_message_found
  | Some reply_to_message =>
      if negb (truthy reply_to_message) then
        logging ERROR No_reply_to_message_found
      else if negb (contains ID_token (original_text reply_to_message)) then
        logging ERROR No_user_ID_found_in_original_message
      else
        try_except
          (target <- match target_user_id (original_text reply_to_message) with
                     | Some target => ret target
                     | None => raise IndexError
                     end ;;
           logging INFO (Identified_target_user_ID target) ;;
           match m_photo message, m_text message with
           | Some photos, _ =>
               photo <- last_photo photos ;;
               let caption := default [] (m_caption message) in
               file_info <- get_telegram_file_info (file_id photo) ;;
               file_url <- file_url_of file_info ;;
               send_photo_to_telegram (IdStr target) (file_id photo) caption ;;
               now <- utcnow ;;
               add_message {| sender_id := FORWARD_TO_ID cfg; sender_name := lit "You";
                              text := lit_picture ++ file_url ++ lit " " ++ caption;
                              timestamp := now;
                              media_type := Some (lit "photo");
                              media_url := Some file_url |} ;;
               socketio_emit (new_message (IdStr (FORWARD_TO_ID cfg)) (lit "You")
                                          (lit_picture ++ file_url ++ lit " " ++ caption)
                                          (format_datetime now))
           | None, Some text =>
               send_message_to_telegram (IdStr target) text ;;
               now <- utcnow ;;
               add_message {| sender_id := FORWARD_TO_ID cfg; sender_name := lit "You";
                              text := text; timestamp := now;
                              media_type := None; media_url := None |} ;;
               socketio_emit (new_message (IdStr (FORWARD_TO_ID cfg)) (lit "You") text
                                          (format_datetime now))
           | None, None => ret tt
           end ;;
           logging INFO (Successfully_handled_customer_service_reply target))
          (fun e => logging ERROR (Error_handling_customer_service_reply e))
  end.

(** ** The webhook (lines 132-162) *)

Inductive Ack := status_ok.

Definition telegram_webhook (data : Update) : M Ack :=
  logging DEBUG (Webhook_received_data data) ;;
  match u_message data with
  | Some message =>
      let chat := chat_id (m_chat message) in
      let sender_name := default (lit "Unknown") (first_name (m_chat message)) in
      if bool_decide (str_of_int chat = FORWARD_TO_ID cfg)
         && bool_decide (is_Some (m_reply_to_message message)) then
        handle_customer_service_reply message ;;
        ret status_ok
      else if bool_decide (chat_type (m_chat message) = Some (lit "private")) then
        match m_text message, m_photo message with
        | Some text, _ =>
            handle_text_message chat sender_name text ;;
            handle_auto_reply chat ;;
            ret status_ok
        | None, Some photos =>
            photo <- last_photo photos ;;
            let caption := default [] (m_caption message) in
            handle_photo_message chat sender_name (file_id photo) caption ;;
            handle_auto_reply chat ;;
            ret status_ok
        | None, None => ret status_ok
        end
      else ret status_ok
  | None => ret status_ok
  end.

(** ** The dashboard socket (lines 164-207) *)

Definition handle_send_message (data : SendData) : M unit :=
  logging DEBUG (Received_data_for_sending_message data) ;;
  if bool_decide (d_secure_token data ≠ Some (SECURE_TOKEN cfg)) then
    logging ERROR Invalid_secure_token_received ;;
    emit (error (lit "Invalid secure_token")) false
  else
    match d_sender_id data, d_text data with
    | Some ((_ :: _) as chat), Some ((_ :: _) as text) =>
        try_except
          (send_message_to_telegram (IdStr chat) text ;;
           now <- utcnow ;;
           add_message {| sender_id := chat; sender_name := lit "You";
                          text := text; timestamp := now;
                          media_type := None; media_url := None |} ;;
           emit (new_message (IdStr chat) (lit "You") text (format_datetime now)) true ;;
           logging INFO (Message_sent_successfully_to_user chat))
          (fun e => logging ERROR (Error_sending_message e) ;;
                    emit (error (lit "Failed to send message")) false)
    | _, _ =>
        logging WARNING Invalid_data_received_for_sending_message ;;
        emit (error (lit "Missing required fields")) false
    end.

End Relay.

(** * Vocabulary of the properties *)

(** The segment before the first separator, [s.split(sep)[0]]. *)
Definition first_segment (sep s : str) : str :=
  match find sep s with Some i => take i s | None => s end.

(** The text up to the marker of a forwarded message. *)
Definition before_marker (name : str) : str := lit_user ++ name ++ lit " (".

(** The characters of a decimal rendering: digits and the minus sign. *)
Definition is_decimal (c : N) : bool := ((c =? 45) || (48 <=? c) && (c <=? 57))%N.

(** The quoted message the operator answers when the forwarded text (or the
    forwarded photo caption) comes back unchanged. *)
Definition quoted_text (body : str) : Quoted :=
  {| q_caption := None; q_text := Some body; q_other_keys := true |}.
Definition quoted_caption (body : str) : Quoted :=
  {| q_caption := Some body; q_text := None; q_other_keys := true |}.

(** [a] carries a strictly earlier timestamp than [b]. *)
Definition older_first (a b : Message) : Prop := timestamp a < timestamp b.

(** The world [w] looked at when every clock reading gives [t]. *)
Definition at_time (t : Z) (w : World) : World :=
  mkWorld (messages w) (auto_replies w) (wire w) (emitted w) (log w)
          (net w) (session w) (fun _ => t).

(** [l'] is [l] followed by elements that all satisfy [P]. *)
Definition extends {A} (P : A → Prop) (l l' : list A) : Prop :=
  ∃ new, l' = l ++ new ∧ Forall P new.

Section Quiet.

Variable cfg : Config.
Variable chat : Z.

(** The call and the log record by which [handle_auto_reply] greets [chat]. *)
Definition welcome_call : Request := SendMessage (IdInt chat) (WELCOME_MESSAGE cfg).
Definition not_welcome (c : Request * Response) : Prop := c.1 ≠ welcome_call.
Definition not_auto_reply (e : Level * LogMsg) : Prop :=
  e.2 ≠ Sent_auto_reply_to_user chat ∧ ∀ x, e.2 ≠ Error_sending_auto_reply x.

Definition quiet (w w' : World) : Prop :=
  auto_replies w' = auto_replies w
  ∧ extends not_welcome (wire w) (wire w')
  ∧ extends not_auto_reply (log w) (log w').

Definition keeps {A} (m : M A) : Prop := ∀ w, quiet w (snd (m w)).

End Quiet.

(** No run of [m] ends in an exception. *)
Definition never_raises {A} (m : M A) : Prop := ∀ w, ∃ a, fst (m w) = Ok a.

(** Every run of [m] takes a world to one related to it by [R]. *)
Definition preserved (R : World → World → Prop) {A} (m : M A) : Prop :=
  ∀ w, R w (snd (m w)).

(** The table of messages and the three traces only get longer. *)
Definition grows (w w' : World) : Prop :=
  messages w `prefix_of` messages w'
  ∧ wire w `prefix_of` wire w'
  ∧ emitted w `prefix_of` emitted w'
  ∧ log w `prefix_of` log w'.

(** The auto-reply table is left as it was. *)
Definition gate_untouched (w w' : World) : Prop := auto_replies w' = auto_replies w.

(** Timestamps in non-decreasing order. *)
Definition not_newer (a b : Message) : Prop := timestamp a <= timestamp b.

(** A private photo message from chat 111. *)
Definition alice_sends_photo (photos : list PhotoSize) : Update :=
  {| u_message := Some
       {| m_chat := {| chat_id := 111; first_name := Some (lit "Alice");
                       chat_type := Some (lit "private") |};
          m_text := None; m_photo := Some photos; m_caption := Some (lit "a cat");
          m_reply_to_message := None |} |}.

(** ** Sample inputs *)

(** A configuration, a world in which nothing fails, and a world in which
    every call to the Telegram API fails. *)
Definition demo_cfg : Config :=
  {| BOT_TOKEN := lit "42:token"; SECURE_TOKEN := lit "s3cret";
     FORWARD_TO_ID := lit "999"; WELCOME_MESSAGE := lit "Welcome!";
     COOLDOWN_HOURS := 24 |}.

(** The same configuration with a cooldown of 10^8 hours. *)
Definition long_cooldown_cfg : Config :=
  {| BOT_TOKEN := lit "42:token"; SECURE_TOKEN := lit "s3cret";
     FORWARD_TO_ID := lit "999"; WELCOME_MESSAGE := lit "Welcome!";
     COOLDOWN_HOURS := 100000000 |}.

Definition quiet_world : World :=
  mkWorld [] ∅ [] [] [] (fun _ => HttpOk None) (Usable (fun _ => true))
          (fun i => Z.of_nat i).

Definition offline_world : World :=
  mkWorld [] ∅ [] [] [] (fun _ => HttpFail) (Usable (fun _ => true))
          (fun i => Z.of_nat i).


(** A session in pending rollback. *)
Definition rolled_back_world : World :=
  mkWorld [] ∅ [] [] [] (fun _ => HttpOk None) PendingRollback (fun i => Z.of_nat i).

(** The operator (chat 999 of [demo_cfg]) answers [reply] to a message
    whose text is [quoted]. *)
Definition operator_reply (quoted reply : str) : TgMessage :=
  {| m_chat := {| chat_id := 999; first_name := Some (lit "Op");
                  chat_type := Some (lit "private") |};
     m_text := Some reply; m_photo := None; m_caption := None;
     m_reply_to_message := Some (quoted_text quoted) |}.

(** Alice (chat 111) sends the private text "hi". *)
Definition alice_says_hi : Update :=
  {| u_message := Some
       {| m_chat := {| chat_id := 111; first_name := Some (lit "Alice");
                       chat_type := Some (lit "private") |};
          m_text := Some (lit "hi"); m_photo := None; m_caption := None;
          m_reply_to_message := None |} |}.

Definition alice_row (now : Z) : Message :=
  {| sender_id := lit "111"; sender_name := lit "Alice"; text := lit "hi";
     timestamp := now; media_type := None; media_url := None |}.

Definition bot_row (cfg : Config) (now : Z) : Message :=
  {| sender_id := BOT_TOKEN cfg; sender_name := lit "Bot"; text := WELCOME_MESSAGE cfg;
     timestamp := now; media_type := None; media_url := None |}.

(** "用户 Alice (ID: 111) 发来消息:\nhi" *)
Definition alice_forwarded : str :=
  lit_user ++ lit "Alice (ID: 111)" ++ lit_sent_text ++ lit "hi".

(** "User Alice (ID: 111) says:\nhi" *)
Definition alice_forwarded_in_english : str :=
  lit "User Alice (ID: 111) says:" ++ [10%N] ++ lit "hi".

(** Unfolding of the primitives of the monad. *)
Ltac run_prims :=
  unfold send_message_to_telegram, send_photo_to_telegram, get_telegram_file_info,
         file_url_of, last_photo, socketio_emit, add_message;
  unfold bind, try_except, ret, raise, logging, emit, requests_post, commit,
         utcnow, query_auto_reply, shift;
  simpl.

(** * Properties *)

(** ** Strings *)

Example split_example :
  split (lit "ID:") (lit "a (ID: 12) b ID: 3") = [lit "a ("; lit " 12) b "; lit " 3"]
  ∧ split (lit "aa") (lit "aaa") = [[]; lit "a"]
  ∧ split (lit ")") (lit "no paren") = [lit "no paren"].
Proof. repeat split; reflexivity. Qed.

Example strip_example :
  strip (lit "  12 ") = lit "12" ∧ strip [0x3000; 49; 0xA0]%N = lit "1" ∧ strip (lit " ") = [].
Proof. repeat split; reflexivity. Qed.

Example str_of_int_example :
  str_of_int (-120) = lit "-120" ∧ str_of_int 0 = lit "0" ∧ str_of_int 12345 = lit "12345".
Proof. repeat split; reflexivity. Qed.

Example target_user_id_example :
  target_user_id (forward_text (lit "Alice") (str_of_int 111) (lit "hi")) = Some (lit "111")
  ∧ target_user_id (lit "no marker") = None
  ∧ target_user_id (lit "ID:7") = Some (lit "7").
Proof. repeat split; reflexivity. Qed.

Lemma find_cons sep c s :
  find sep (c :: s) = if startswith sep (c :: s) then Some 0%nat else S <$> find sep s.
Proof. reflexivity. Qed.

Lemma find_nil sep : sep ≠ [] → find sep [] = None.
Proof. by destruct sep. Qed.

Lemma startswith_length sep s : startswith sep s = true → (length sep ≤ length s)%nat.
Proof.
  revert s; induction sep as [|a sep IH]; intros [|b s]; simpl; try lia; try done.
  intros [_ H]%andb_prop. apply IH in H. lia.
Qed.

Lemma find_Some_bound sep s i :
  find sep s = Some i → (i + length sep ≤ length s)%nat.
Proof.
  revert i; induction s as [|c s IH]; intros i.
  - simpl. destruct (startswith sep []) eqn:E; [|done].
    intros [= <-]. by apply startswith_length in E.
  - rewrite find_cons. destruct (startswith sep (c :: s)) eqn:E.
    + intros [= <-]. by apply startswith_length in E.
    + destruct (find sep s) as [j|]; [|done]. intros [= <-].
      specialize (IH j eq_refl). simpl. lia.
Qed.

Lemma split_fuel_irrel n m sep s :
  sep ≠ [] → (length s ≤ n)%nat → (length s ≤ m)%nat →
  split_fuel n sep s = split_fuel m sep s.
Proof.
  intros Hsep. revert m s. induction n as [|n IH]; intros m s Hn Hm.
  - destruct s; [|simpl in Hn; lia].
    destruct m; cbn [split_fuel]; by rewrite find_nil.
  - cbn [split_fuel]. destruct (find sep s) as [i|] eqn:E;
      [|by destruct m; cbn [split_fuel]; rewrite E].
    pose proof (find_Some_bound _ _ _ E) as Hb.
    assert (0 < length sep)%nat by (destruct sep; [done | simpl; lia]).
    destruct m as [|m]; [lia|]. cbn [split_fuel]. rewrite E. f_equal.
    apply IH; rewrite length_drop; lia.
Qed.

(** The defining equation of [split]. *)
Lemma split_eq sep s :
  sep ≠ [] →
  split sep s = match find sep s with
                | Some i => take i s :: split sep (drop (i + length sep) s)
                | None => [s]
                end.
Proof.
  intros Hsep. unfold split. destruct s as [|c s].
  - cbn [length split_fuel]. by rewrite find_nil.
  - cbn [length split_fuel]. destruct (find sep (c :: s)) as [i|] eqn:E; [|done].
    f_equal. pose proof (find_Some_bound _ _ _ E) as Hb. simpl in Hb.
    assert (0 < length sep)%nat by (destruct sep; [done | simpl; lia]).
    apply split_fuel_irrel; [done | rewrite length_drop; simpl; lia | lia].
Qed.

Lemma split_first sep s : sep ≠ [] → split sep s !! 0%nat = Some (first_segment sep s).
Proof.
  intros Hsep. rewrite split_eq by done. unfold first_segment.
  by destruct (find sep s).
Qed.

Lemma split_second sep s i :
  sep ≠ [] → find sep s = Some i →
  split sep s !! 1%nat = Some (first_segment sep (drop (i + length sep) s)).
Proof.
  intros Hsep E. rewrite split_eq, E by done. simpl. by apply split_first.
Qed.

(** Without a separator there is no second segment: index 1 is out of range. *)
Lemma split_second_None sep s :
  sep ≠ [] → find sep s = None → split sep s !! 1%nat = None.
Proof. intros Hsep E. by rewrite split_eq, E. Qed.

Lemma startswith_app_skip sep a x t :
  x ∉ sep → startswith sep a = false → startswith sep (a ++ x :: t) = false.
Proof.
  revert a; induction sep as [|c sep IH]; intros a Hx; [done|].
  apply not_elem_of_cons in Hx as [Hc Hx].
  destruct a as [|b a]; simpl.
  - intros _. apply andb_false_intro1, N.eqb_neq. congruence.
  - intros [->|H]%andb_false_iff; [done|]. rewrite IH by done. apply andb_false_r.
Qed.

(** A separator that does not occur in [a] does not straddle the end of [a]
    when the next character is foreign to it. *)
Lemma find_app_skip sep a x t :
  x ∉ sep → find sep a = None →
  find sep (a ++ x :: t) = (fun i => length a + i)%nat <$> find sep (x :: t).
Proof.
  intros Hx. induction a as [|b a IH]; intros Ha.
  - simpl app. by destruct (find sep (x :: t)).
  - rewrite find_cons in Ha. destruct (startswith sep (b :: a)) eqn:E; [done|].
    destruct (find sep a) eqn:Ea; [done|].
    pose proof (startswith_app_skip sep (b :: a) x t Hx E) as E'.
    rewrite <- app_comm_cons in E' |- *. rewrite find_cons, E', IH by done.
    by destruct (find sep (x :: t)).
Qed.

Lemma contains_false sep s : contains sep s = false ↔ find sep s = None.
Proof. unfold contains. by destruct (find sep s). Qed.

Lemma contains_true sep s : contains sep s = true ↔ is_Some (find sep s).
Proof.
  unfold contains. destruct (find sep s); split; done.
Qed.

(** [strip] *)
Lemma lstrip_space c s : isspace c = true → lstrip (c :: s) = lstrip s.
Proof. intros H. simpl. by rewrite H. Qed.

Lemma strip_space c s : isspace c = true → strip (c :: s) = strip s.
Proof. intros H. unfold strip. by rewrite lstrip_space. Qed.

Lemma lstrip_no_space s : Forall (fun c => isspace c = false) s → lstrip s = s.
Proof. destruct 1 as [|c s H _]; simpl; [done | by rewrite H]. Qed.

Lemma strip_no_space s : Forall (fun c => isspace c = false) s → strip s = s.
Proof.
  intros H. unfold strip, rstrip. rewrite (lstrip_no_space s H).
  rewrite lstrip_no_space, reverse_involutive; [done|].
  by apply Forall_reverse.
Qed.

Lemma find_single_None c s : find [c] s = None ↔ c ∉ s.
Proof.
  induction s as [|b s IH]; [by split; [intros _; apply not_elem_of_nil|]|].
  rewrite find_cons, not_elem_of_cons. cbn [startswith].
  destruct (N.eqb_spec c b) as [->|Hne]; simpl.
  - split; [done | by intros [? _]].
  - destruct (find [c] s); simpl; split; try done.
    + intros [_ H]. by apply IH in H.
    + intros _. split; [done | by apply IH].
Qed.

Lemma find_single c a t : c ∉ a → find [c] (a ++ c :: t) = Some (length a).
Proof.
  induction a as [|b a IH]; intros Hc.
  - simpl. by rewrite N.eqb_refl.
  - apply not_elem_of_cons in Hc as [Hb Ha].
    rewrite <- app_comm_cons, find_cons. cbn [startswith].
    rewrite (proj2 (N.eqb_neq c b)) by done. simpl. by rewrite IH.
Qed.

Lemma first_segment_single c a t : c ∉ a → first_segment [c] (a ++ c :: t) = a.
Proof.
  intros Hc. unfold first_segment. rewrite find_single by done.
  by rewrite take_app_length.
Qed.

Lemma first_segment_absent sep s : find sep s = None → first_segment sep s = s.
Proof. unfold first_segment. by intros ->. Qed.

(** The first segment reaches at least up to a character foreign to the
    separator, when no separator starts before it. *)
Lemma first_segment_skip sep a x t :
  sep ≠ [] → x ∉ sep → find sep a = None →
  ∃ k, first_segment sep (a ++ x :: t) = a ++ x :: take k t.
Proof.
  intros Hsep Hx Ha. unfold first_segment. rewrite find_app_skip, find_cons by done.
  assert (startswith sep (x :: t) = false) as ->.
  { destruct sep as [|c sep]; [done|]. apply not_elem_of_cons in Hx as [Hc _].
    simpl. by rewrite (proj2 (N.eqb_neq c x)) by congruence. }
  destruct (find sep t) as [j|]; simpl.
  - exists j. rewrite take_app_ge by lia.
    replace (length a + S j - length a)%nat with (S j) by lia. done.
  - exists (length t). by rewrite take_ge.
Qed.

Lemma ID_token_ne : ID_token ≠ [].
Proof. done. Qed.
Lemma close_paren_ne : close_paren ≠ [].
Proof. done. Qed.

Lemma space_not_in_ID_token : 32%N ∉ ID_token.
Proof. apply (bool_decide_unpack _). by vm_compute. Qed.
Lemma paren_not_in_ID_token : 41%N ∉ ID_token.
Proof. apply (bool_decide_unpack _). by vm_compute. Qed.

Lemma drop_past (pre sep rest : str) :
  drop (length pre + length sep) (pre ++ sep ++ rest) = rest.
Proof. rewrite app_assoc, <- length_app. apply drop_app_length. Qed.

Lemma marker_shape name id tail :
  lit_user ++ name ++ lit " (ID: " ++ id ++ lit ")" ++ tail
  = before_marker name ++ ID_token ++ (32%N :: id) ++ 41%N :: tail.
Proof. unfold before_marker. by rewrite <- !app_assoc. Qed.

(** Where the marker is found: the sender's name is followed by a space,
    which cannot start or continue the token. *)
Lemma find_marker name rest :
  find ID_token name = None →
  find ID_token (before_marker name ++ ID_token ++ rest)
  = Some (length (before_marker name)).
Proof.
  intros Hname. unfold before_marker. rewrite <- !app_assoc.
  change (lit " (") with [32; 40]%N.
  unfold lit_user. cbn [app]. rewrite !find_cons. cbn [startswith ID_token N.eqb Pos.eqb andb].
  rewrite (find_app_skip ID_token name 32%N) by (done || apply space_not_in_ID_token).
  rewrite !find_cons. cbn [startswith ID_token N.eqb Pos.eqb andb fmap option_fmap option_map].
  unfold ID_token. simpl. rewrite length_app. simpl. by f_equal.
Qed.

(** The correlator on any text that carries the marker the way the
    forwarded messages do. *)
Lemma target_of_marker name id tail :
  contains ID_token name = false →
  contains ID_token id = false →
  contains close_paren id = false →
  target_user_id (lit_user ++ name ++ lit " (ID: " ++ id ++ lit ")" ++ tail)
  = Some (strip id).
Proof.
  rewrite !contains_false. intros Hname Hid Hparen.
  apply find_single_None in Hparen.
  unfold target_user_id. rewrite marker_shape.
  rewrite (split_second _ _ _ ID_token_ne (find_marker name _ Hname)), drop_past.
  destruct (first_segment_skip ID_token (32%N :: id) 41%N tail) as [k ->];
    [done | apply paren_not_in_ID_token | by rewrite find_cons, Hid |].
  cbn [mbind option_bind]. rewrite split_first by done. cbn [mbind option_bind].
  change close_paren with [41%N].
  rewrite (first_segment_single 41%N (32%N :: id)).
  - by rewrite strip_space.
  - apply not_elem_of_cons. by split.
Qed.

(** ** Decimal renderings

    [str(n)] consists of digits and at most a sign, so an integer chat
    identifier never disturbs the marker. *)

Lemma is_decimal_cases c :
  is_decimal c = true → c ∈ [45; 48; 49; 50; 51; 52; 53; 54; 55; 56; 57]%N.
Proof.
  unfold is_decimal. rewrite orb_true_iff, andb_true_iff, N.eqb_eq, !N.leb_le.
  intros H. assert (c = 45 ∨ c = 48 ∨ c = 49 ∨ c = 50 ∨ c = 51 ∨ c = 52 ∨ c = 53
                    ∨ c = 54 ∨ c = 55 ∨ c = 56 ∨ c = 57)%N as Hc by lia.
  rewrite !elem_of_cons. tauto.
Qed.

Lemma str_of_int_decimal n : Forall (fun c => is_decimal c = true) (str_of_int n).
Proof.
  unfold str_of_int.
  assert (∀ d, Forall (fun c => is_decimal c = true) (lit (NilEmpty.string_of_uint d))) as Hu.
  { induction d; simpl; try constructor; done. }
  destruct (Z.to_int n) as [d|d]; simpl; [apply Hu | constructor; [done | apply Hu]].
Qed.

Lemma decimal_no_space s :
  Forall (fun c => is_decimal c = true) s → Forall (fun c => isspace c = false) s.
Proof.
  intros H. eapply Forall_impl; [exact H|]. intros c Hc%is_decimal_cases.
  rewrite !elem_of_cons in Hc.
  repeat (destruct Hc as [->|Hc]; [reflexivity|]). by apply elem_of_nil in Hc.
Qed.

Lemma decimal_no_paren s : Forall (fun c => is_decimal c = true) s → 41%N ∉ s.
Proof.
  intros H Hin. rewrite Forall_forall in H.
  by specialize (H _ Hin).
Qed.

Lemma decimal_no_ID_token s :
  Forall (fun c => is_decimal c = true) s → find ID_token s = None.
Proof.
  induction 1 as [|c s Hc _ IH]; [done|].
  rewrite find_cons, IH. unfold ID_token. cbn [startswith].
  apply is_decimal_cases in Hc. rewrite !elem_of_cons in Hc.
  repeat (destruct Hc as [->|Hc]; [reflexivity|]). by apply elem_of_nil in Hc.
Qed.

(** ** The correlator *)

(** C1, as amended: for every sender name that does not contain "ID:" and
    every user identifier that contains neither "ID:" nor ")" and has no
    white space at either end, the correlator applied to a quoted message
    whose text is the forwarded text, or whose caption is the forwarded
    photo caption, extracts exactly that identifier. *)
Theorem C1_marker_round_trip (sender_name id body caption : str) :
  contains ID_token sender_name = false →
  contains ID_token id = false →
  contains close_paren id = false →
  strip id = id →
  target_user_id (original_text (quoted_text (forward_text sender_name id body))) = Some id
  ∧ target_user_id (original_text (quoted_caption (forward_caption sender_name id caption)))
    = Some id.
Proof.
  intros Hname Hid Hparen Hstrip. split.
  - unfold quoted_text, original_text. simpl default.
    unfold forward_text. rewrite target_of_marker by done. by rewrite Hstrip.
  - unfold quoted_caption, original_text. simpl default.
    unfold forward_caption, lit_user. cbn [app].
    change (29992%N :: 25143%N :: 32%N :: ?x) with (lit_user ++ x).
    rewrite target_of_marker by done. by rewrite Hstrip.
Qed.

Lemma C1_marker_round_trip_witness :
  target_user_id (original_text (quoted_text
    (forward_text (lit "Alice") (lit "12345") (lit "hi")))) = Some (lit "12345")
  ∧ target_user_id (original_text (quoted_caption
    (forward_caption (lit "Alice") (lit "12345") (lit "a cat")))) = Some (lit "12345").
Proof.
  apply (C1_marker_round_trip (lit "Alice") (lit "12345")); reflexivity.
Defined.

(** The claim without the condition on the sender's name fails: a user
    whose display name is "ID:" hides the marker behind its own name. *)
Lemma C1_sender_name_breaks_round_trip :
  ¬ (∀ sender_name id body : str,
       contains ID_token id = false →
       contains close_paren id = false →
       target_user_id (original_text (quoted_text (forward_text sender_name id body)))
       = Some id).
Proof.
  intros H. specialize (H (lit "ID:") (lit "111") (lit "hi") eq_refl eq_refl).
  vm_compute in H. discriminate H.
Qed.

(** What the handlers embed is [str(chat_id)] of an integer: the round trip
    holds for every chat the webhook relays, whatever the message says. *)
Lemma round_trip_int (sender_name : str) (chat : Z) (body : str) :
  contains ID_token sender_name = false →
  target_user_id (original_text (quoted_text (forward_text sender_name (str_of_int chat) body)))
  = Some (str_of_int chat)
  ∧ target_user_id (original_text
      (quoted_caption (forward_caption sender_name (str_of_int chat) body)))
    = Some (str_of_int chat).
Proof.
  intros Hname. pose proof (str_of_int_decimal chat) as Hdec.
  unfold quoted_text, quoted_caption, original_text. simpl default.
  assert (∀ tail, target_user_id
            (lit_user ++ sender_name ++ lit " (ID: " ++ str_of_int chat ++ lit ")" ++ tail)
          = Some (str_of_int chat)) as Hgen.
  { intros tail. rewrite target_of_marker; try done.
    - by rewrite strip_no_space by by apply decimal_no_space.
    - by apply contains_false, decimal_no_ID_token.
    - by apply contains_false, find_single_None, decimal_no_paren. }
  split; [apply Hgen|].
  unfold forward_caption, lit_user. cbn [app].
  change (29992%N :: 25143%N :: 32%N :: ?x) with (lit_user ++ x). apply Hgen.
Qed.

(** ** Running the handlers *)

(** C3: an operator reply whose quoted text or caption lacks "ID:" is
    acknowledged; the failure is logged as an error ("No user ID found in
    original message", or "No reply_to_message found" when the quoted
    object has no key at all) and nothing else happens: no call to the
    Telegram API, no row stored, nothing emitted, no exception. *)
Theorem C3_reply_without_marker
    (cfg : Config) (data : Update) (message : TgMessage) (quoted : Quoted) (w : World) :
  u_message data = Some message →
  str_of_int (chat_id (m_chat message)) = FORWARD_TO_ID cfg →
  m_reply_to_message message = Some quoted →
  contains ID_token (original_text quoted) = false →
  let w' := snd (telegram_webhook cfg data w) in
  fst (telegram_webhook cfg data w) = Ok status_ok
  ∧ log w' = log w ++ [(DEBUG, Webhook_received_data data);
                       (DEBUG, Handling_customer_service_reply message);
                       (ERROR, if truthy quoted
                               then No_user_ID_found_in_original_message
                               else No_reply_to_message_found)]
  ∧ wire w' = wire w
  ∧ messages w' = messages w
  ∧ auto_replies w' = auto_replies w
  ∧ emitted w' = emitted w.
Proof.
  intros Hmsg Hop Hq Hno. unfold telegram_webhook, handle_customer_service_reply.
  rewrite Hmsg. cbn zeta. rewrite Hop, Hq, Hno.
  rewrite bool_decide_true by done. rewrite bool_decide_true by by eexists.
  destruct (truthy quoted); run_prims; by rewrite <- !app_assoc.
Qed.

(** C8: a [send_message] payload whose [secure_token] is not the configured
    one gets an [error] event for the originating session only; nothing is
    broadcast, stored or sent. *)
Theorem C8_wrong_secret (cfg : Config) (data : SendData) (w : World) :
  d_secure_token data ≠ Some (SECURE_TOKEN cfg) →
  let w' := snd (handle_send_message cfg data w) in
  fst (handle_send_message cfg data w) = Ok tt
  ∧ emitted w' = emitted w ++ [{| event := error (lit "Invalid secure_token");
                                  to_all := false |}]
  ∧ messages w' = messages w
  ∧ auto_replies w' = auto_replies w
  ∧ wire w' = wire w.
Proof.
  intros Htoken. unfold handle_send_message.
  rewrite bool_decide_true by done. by run_prims.
Qed.

(** C9: a validated payload whose Telegram send fails stores nothing and
    broadcasts nothing; the originating session alone is told
    'Failed to send message'. *)
Theorem C9_failed_send_is_not_stored
    (cfg : Config) (data : SendData) (chat body : str) (w : World) :
  d_secure_token data = Some (SECURE_TOKEN cfg) →
  d_sender_id data = Some chat → chat ≠ [] →
  d_text data = Some body → body ≠ [] →
  net w 0%nat = HttpFail →
  let w' := snd (handle_send_message cfg data w) in
  fst (handle_send_message cfg data w) = Ok tt
  ∧ wire w' = wire w ++ [(SendMessage (IdStr chat) body, HttpFail)]
  ∧ messages w' = messages w
  ∧ auto_replies w' = auto_replies w
  ∧ emitted w' = emitted w ++ [{| event := error (lit "Failed to send message");
                                  to_all := false |}].
Proof.
  intros Htoken Hchat Hne Hbody Hne' Hnet. unfold handle_send_message.
  rewrite Htoken, Hchat, Hbody. rewrite bool_decide_false by (by intros []).
  destruct chat as [|c chat]; [done|]. destruct body as [|b body]; [done|].
  run_prims. rewrite Hnet. by simpl.
Qed.

(** C2, on the code: while a user's private text is relayed, a failed
    commit or a failed send to the operator is not caught: the exception
    leaves [telegram_webhook], so no acknowledgement is returned; after a
    failed send the row is already stored, nothing is emitted and the
    auto-reply is not reached. *)
Theorem C2_text_relay_failure_escapes
    (cfg : Config) (data : Update) (message : TgMessage) (body : str) (w : World) :
  u_message data = Some message →
  str_of_int (chat_id (m_chat message)) ≠ FORWARD_TO_ID cfg →
  chat_type (m_chat message) = Some (lit "private") →
  m_text message = Some body →
  let w' := snd (telegram_webhook cfg data w) in
  (db_ok w 0%nat = false → fst (telegram_webhook cfg data w) = Raise SQLAlchemyError)
  ∧ (db_ok w 0%nat = true → net w 0%nat = HttpFail →
     fst (telegram_webhook cfg data w) = Raise HTTPError
     ∧ length (messages w') = S (length (messages w))
     ∧ emitted w' = emitted w
     ∧ log w' = log w ++ [(DEBUG, Webhook_received_data data);
                          (ERROR, Error_sending_message_to_Telegram HTTPError)]).
Proof.
  intros Hmsg Huser Hpriv Htext. unfold telegram_webhook, handle_text_message.
  rewrite Hmsg. cbn zeta. rewrite Hpriv, Htext.
  rewrite (bool_decide_false _ Huser). cbn [andb]. rewrite bool_decide_true by done.
  split.
  - intros Hdb. run_prims. by rewrite Hdb.
  - intros Hdb Hnet. run_prims. rewrite Hdb. simpl. rewrite Hnet. simpl.
    rewrite length_app, <- app_assoc. simpl. repeat split; try done. lia.
Qed.

(** A quoted object in which the marker is found has a key. *)
Lemma marker_truthy quoted :
  contains ID_token (original_text quoted) = true → truthy quoted = true.
Proof.
  unfold original_text, truthy.
  by destruct (q_caption quoted) as [[|? ?]|], (q_text quoted) as [[|? ?]|].
Qed.

Lemma target_without_terminator (s : str) (i : nat) :
  find ID_token s = Some i →
  contains close_paren (drop (i + 3) s) = false →
  target_user_id s = Some (strip (first_segment ID_token (drop (i + 3) s))).
Proof.
  intros Hfind Hparen%contains_false%find_single_None.
  unfold target_user_id. rewrite (split_second _ _ _ ID_token_ne Hfind).
  change (length ID_token) with 3%nat. cbn [mbind option_bind].
  rewrite split_first by done. cbn [mbind option_bind]. do 2 f_equal.
  apply first_segment_absent, find_single_None.
  unfold first_segment. destruct (find ID_token (drop (i + 3) s)); [|done].
  intros Hin. apply Hparen. by eapply subseteq_take.
Qed.

(** C10, as amended: when the quoted text contains "ID:" and no ")" after
    its first occurrence, correlation succeeds; the target is what follows
    the first "ID:" up to the next "ID:" (the whole remainder when there is
    none), trimmed.  An operator reply that carries text is relayed to that
    target by one [sendMessage] call; one that carries a photo by a
    [sendPhoto] call once the file metadata have been fetched.  The webhook
    acknowledges in every case. *)
Theorem C10_marker_without_terminator
    (cfg : Config) (data : Update) (message : TgMessage) (quoted : Quoted)
    (i : nat) (w : World) :
  u_message data = Some message →
  str_of_int (chat_id (m_chat message)) = FORWARD_TO_ID cfg →
  m_reply_to_message message = Some quoted →
  find ID_token (original_text quoted) = Some i →
  contains close_paren (drop (i + 3) (original_text quoted)) = false →
  let rest := drop (i + 3) (original_text quoted) in
  let target := strip (first_segment ID_token rest) in
  let w' := snd (telegram_webhook cfg data w) in
  target_user_id (original_text quoted) = Some target
  ∧ (contains ID_token rest = false → target = strip rest)
  ∧ fst (telegram_webhook cfg data w) = Ok status_ok
  ∧ (∀ body, m_photo message = None → m_text message = Some body →
       wire w' = wire w ++ [(SendMessage (IdStr target) body, net w 0%nat)])
  ∧ (∀ photos photo path,
       m_photo message = Some photos → last photos = Some photo →
       net w 0%nat = HttpOk (Some path) →
       wire w' = wire w ++ [(GetFile (file_id photo), HttpOk (Some path));
                            (SendPhoto (IdStr target) (file_id photo)
                                       (default [] (m_caption message)), net w 1%nat)]).
Proof.
  intros Hmsg Hop Hq Hfind Hparen rest target w'.
  pose proof (target_without_terminator _ _ Hfind Hparen) as Htarget.
  fold rest in Htarget. fold target in Htarget.
  assert (contains ID_token (original_text quoted) = true) as Hin
    by (apply contains_true; by eexists).
  split; [done|]. split.
  { intros Hno%contains_false. subst target. by rewrite first_segment_absent. }
  subst w'. unfold telegram_webhook, handle_customer_service_reply.
  rewrite Hmsg. cbn zeta. rewrite Hop, Hq, (marker_truthy _ Hin), Hin, Htarget.
  rewrite bool_decide_true by done. rewrite bool_decide_true by by eexists.
  clearbody target. clear Htarget rest Hparen Hfind Hin.
  split; [|split].
  - destruct (m_photo message) as [photos|]; destruct (m_text message) as [body|];
      run_prims; try done;
      try (destruct (last photos) as [photo|]; simpl; try done);
      destruct (net w 0%nat) as [|[path|]]; simpl; try done;
      destruct (net w 1%nat); simpl; try done;
      destruct (db_ok w 0%nat); simpl; done.
  - intros body -> ->. run_prims.
    destruct (net w 0%nat); simpl; [done|]. by destruct (db_ok w 0%nat).
  - intros photos photo path -> Hlast Hnet. run_prims.
    rewrite Hlast. simpl. rewrite Hnet. simpl.
    destruct (net w 1%nat); simpl; [by rewrite <- app_assoc|].
    destruct (db_ok w 0%nat); simpl; by rewrite <- app_assoc.
Qed.

(** The claim as first stated (the target is the entire remainder) fails on
    a quoted text with a second "ID:". *)
Lemma C10_second_marker_cuts_target :
  ¬ (∀ (s : str) (i : nat),
       find ID_token s = Some i →
       contains close_paren (drop (i + 3) s) = false →
       target_user_id s = Some (strip (drop (i + 3) s))).
Proof.
  intros H. specialize (H (lit "ID: 12 ID: 34") 0%nat eq_refl eq_refl).
  vm_compute in H. discriminate H.
Qed.

(** ** The auto-reply gate *)

(** A session whose commit can succeed is not in pending rollback. *)
Lemma usable_session w i : db_ok w i = true → pending_rollback w = false.
Proof. by destruct (session w). Qed.

Lemma cooldown_time_eq cfg last :
  timedelta_ok (COOLDOWN_HOURS cfg) = true →
  datetime_ok (last + timedelta_hours (COOLDOWN_HOURS cfg)) = true →
  cooldown_time cfg last = Some (last + timedelta_hours (COOLDOWN_HOURS cfg)).
Proof.
  intros Hdelta Hsum. unfold cooldown_time, timedelta_of_hours, datetime_add.
  rewrite Hdelta. simpl. by rewrite Hsum.
Qed.

Lemma cooldown_time_Some cfg last instant :
  cooldown_time cfg last = Some instant →
  instant = last + timedelta_hours (COOLDOWN_HOURS cfg).
Proof.
  unfold cooldown_time, timedelta_of_hours, datetime_add.
  destruct (timedelta_ok _); [|done]. simpl.
  destruct (datetime_ok _); [|done]. by intros [= <-].
Qed.

Lemma should_send_auto_reply_eq (cfg : Config) (user_id : str) (w : World) :
  fst (should_send_auto_reply cfg user_id w)
  = if pending_rollback w then Raise SQLAlchemyError
    else match auto_replies w !! user_id with
         | Some (Some last) =>
             match cooldown_time cfg last with
             | Some instant => Ok (instant <? clock w 0%nat)
             | None => Raise OverflowError
             end
         | _ => Ok true
         end.
Proof.
  unfold should_send_auto_reply. run_prims.
  destruct (pending_rollback w); [done|].
  destruct (auto_replies w !! user_id) as [[last|]|]; try done.
  by destruct (cooldown_time cfg last).
Qed.

(** The gate changes nothing but the clock, and not even that when it
    raises. *)
Lemma should_send_auto_reply_frame cfg user_id w :
  let w0 := snd (should_send_auto_reply cfg user_id w) in
  messages w0 = messages w ∧ auto_replies w0 = auto_replies w ∧ wire w0 = wire w
  ∧ emitted w0 = emitted w ∧ log w0 = log w ∧ net w0 = net w
  ∧ session w0 = session w.
Proof.
  unfold should_send_auto_reply. run_prims.
  destruct (pending_rollback w); [done|].
  destruct (auto_replies w !! user_id) as [[last|]|]; simpl; try done.
  by destruct (cooldown_time cfg last).
Qed.

Lemma should_send_auto_reply_raises cfg user_id w e :
  fst (should_send_auto_reply cfg user_id w) = Raise e →
  snd (should_send_auto_reply cfg user_id w) = w.
Proof.
  unfold should_send_auto_reply. run_prims.
  destruct (pending_rollback w); [done|].
  destruct (auto_replies w !! user_id) as [[last|]|]; simpl; try done.
  by destruct (cooldown_time cfg last).
Qed.

(** C4, as amended: in a usable session, with a cooldown that
    [timedelta] accepts and a recorded instant whose sum with the cooldown
    is a [datetime], the gate answers, and answers yes exactly when the
    user has no record, or a record without an instant, or the clock is
    strictly past the recorded instant plus the cooldown.  A user never
    seen gets yes; once [update_auto_reply_record] has stored the instant
    [t], the answer is no at every instant before [t + cooldown] and yes at
    every instant after it. *)
Theorem C4_auto_reply_gate (cfg : Config) (user_id : str) (w : World) :
  let cooldown := timedelta_hours (COOLDOWN_HOURS cfg) in
  pending_rollback w = false →
  timedelta_ok (COOLDOWN_HOURS cfg) = true →
  (∀ last, auto_replies w !! user_id = Some (Some last) →
           datetime_ok (last + cooldown) = true) →
  (∃ fire : bool,
      fst (should_send_auto_reply cfg user_id w) = Ok fire
      ∧ (fire = true ↔
           auto_replies w !! user_id = None
           ∨ auto_replies w !! user_id = Some None
           ∨ ∃ last, auto_replies w !! user_id = Some (Some last)
                     ∧ clock w 0%nat > last + cooldown))
  ∧ (auto_replies w !! user_id = None →
     fst (should_send_auto_reply cfg user_id w) = Ok true)
  ∧ (db_ok w 0%nat = true →
     let t := clock w 0%nat in
     let w1 := snd (update_auto_reply_record user_id w) in
     fst (update_auto_reply_record user_id w) = Ok tt
     ∧ auto_replies w1 !! user_id = Some (Some t)
     ∧ ∀ w2 : World,
         pending_rollback w2 = false →
         auto_replies w2 !! user_id = auto_replies w1 !! user_id →
         datetime_ok (t + cooldown) = true →
         (clock w2 0%nat < t + cooldown →
          fst (should_send_auto_reply cfg user_id w2) = Ok false)
         ∧ (clock w2 0%nat > t + cooldown →
            fst (should_send_auto_reply cfg user_id w2) = Ok true)).
Proof.
  intros cooldown Husable Hdelta Hsum. split; [|split].
  - rewrite should_send_auto_reply_eq, Husable.
    destruct (auto_replies w !! user_id) as [[last|]|] eqn:E.
    + rewrite cooldown_time_eq by auto. eexists. split; [done|].
      rewrite Z.ltb_lt. fold cooldown. split.
      * intros H. right; right. exists last. split; [done|]. lia.
      * intros [?|[?|(last' & [= <-] & H)]]; try done. lia.
    + exists true. split; [done|]. split; [by right; left | done].
    + exists true. split; [done|]. split; [by left | done].
  - intros E. by rewrite should_send_auto_reply_eq, Husable, E.
  - intros Hdb t w1.
    assert (fst (update_auto_reply_record user_id w) = Ok tt
            ∧ auto_replies w1 !! user_id = Some (Some t)) as [Hok Hrec].
    { subst w1 t. unfold update_auto_reply_record. run_prims. rewrite Husable. simpl.
      rewrite Hdb. simpl. split; [done | apply lookup_insert_eq]. }
    split; [done|]. split; [done|]. intros w2 Husable2 Hw2 Hsum2.
    rewrite should_send_auto_reply_eq, Husable2, Hw2, Hrec.
    rewrite cooldown_time_eq by done. fold cooldown.
    split; intros H; f_equal; [apply Z.ltb_ge | apply Z.ltb_lt]; lia.
Qed.

Lemma C4_auto_reply_gate_witness :
  let w1 := snd (update_auto_reply_record (lit "111") quiet_world) in
  fst (should_send_auto_reply demo_cfg (lit "111") quiet_world) = Ok true
  ∧ fst (should_send_auto_reply demo_cfg (lit "111") (at_time 86399999999 w1)) = Ok false
  ∧ fst (should_send_auto_reply demo_cfg (lit "111") (at_time 86400000001 w1)) = Ok true.
Proof.
  intros w1.
  destruct (C4_auto_reply_gate demo_cfg (lit "111") quiet_world) as (_ & Hnew & Hfired);
    [reflexivity | reflexivity | intros last Hlast; discriminate Hlast |].
  split; [apply Hnew; reflexivity|].
  destruct (Hfired eq_refl) as (_ & _ & Hlater).
  split; [apply (Hlater (at_time 86399999999 w1)) | apply (Hlater (at_time 86400000001 w1))];
    reflexivity.
Defined.

(** The claim for every configuration fails: with a cooldown of 10^8
    hours the sum leaves the range of [datetime], and one microsecond after
    the record was written the gate raises [OverflowError] instead of
    answering no. *)
Lemma C4_large_cooldown_overflows :
  ¬ (∀ (cfg : Config) (user_id : str) (w w2 : World),
       pending_rollback w = false →
       db_ok w 0%nat = true →
       pending_rollback w2 = false →
       auto_replies w2 !! user_id
       = auto_replies (snd (update_auto_reply_record user_id w)) !! user_id →
       clock w2 0%nat < clock w 0%nat + timedelta_hours (COOLDOWN_HOURS cfg) →
       fst (should_send_auto_reply cfg user_id w2) = Ok false).
Proof.
  intros H.
  specialize (H long_cooldown_cfg (lit "111") quiet_world
                (at_time 1 (snd (update_auto_reply_record (lit "111") quiet_world)))
                eq_refl eq_refl eq_refl eq_refl eq_refl).
  vm_compute in H. discriminate H.
Qed.

(** ** What an event from the operator cannot do

    A frame for one run: the auto-reply table is left as it was, and what is
    added to the wire and to the log satisfies a given predicate. *)
Section Frame.

Context {A : Type} (P : A → Prop).

Lemma extends_refl l : extends P l l.
Proof. exists []. by rewrite app_nil_r. Qed.

Lemma extends_trans l1 l2 l3 : extends P l1 l2 → extends P l2 l3 → extends P l1 l3.
Proof.
  intros (n1 & -> & H1) (n2 & -> & H2). exists (n1 ++ n2).
  split; [by rewrite app_assoc | by apply Forall_app].
Qed.

Lemma extends_snoc l x : P x → extends P l (l ++ [x]).
Proof. intros Hx. exists [x]. split; [done | by constructor]. Qed.

End Frame.

Section Operator.

Variable cfg : Config.
Variable chat : Z.

Lemma quiet_refl w : quiet cfg chat w w.
Proof. repeat split; apply extends_refl. Qed.

Lemma quiet_trans w1 w2 w3 : quiet cfg chat w1 w2 → quiet cfg chat w2 w3 → quiet cfg chat w1 w3.
Proof.
  intros (Ha & Hw & Hl) (Ha' & Hw' & Hl'). split; [congruence|].
  split; eapply extends_trans; eauto.
Qed.

Lemma keeps_ret {A} (a : A) : keeps cfg chat (ret a).
Proof. intros w. apply quiet_refl. Qed.

Lemma keeps_raise {A} e : keeps cfg chat (@raise A e).
Proof. intros w. apply quiet_refl. Qed.

Lemma keeps_bind {A B} (m : M A) (k : A → M B) :
  keeps cfg chat m → (∀ a, keeps cfg chat (k a)) → keeps cfg chat (bind m k).
Proof.
  intros Hm Hk w. unfold bind. specialize (Hm w).
  destruct (m w) as [[a|e] w1]; simpl in *; [|done].
  eapply quiet_trans; [done | apply Hk].
Qed.

Lemma keeps_try {A} (m : M A) (h : Exn → M A) :
  keeps cfg chat m → (∀ e, keeps cfg chat (h e)) → keeps cfg chat (try_except m h).
Proof.
  intros Hm Hh w. unfold try_except. specialize (Hm w).
  destruct (m w) as [[a|e] w1]; simpl in *; [done|].
  eapply quiet_trans; [done | apply Hh].
Qed.

Lemma keeps_logging lvl msg : not_auto_reply chat (lvl, msg) → keeps cfg chat (logging lvl msg).
Proof.
  intros H w. unfold logging. simpl.
  repeat split; simpl; [apply extends_refl | by apply extends_snoc].
Qed.

Lemma keeps_emit e b : keeps cfg chat (emit e b).
Proof. intros w. repeat split; apply extends_refl. Qed.

Lemma keeps_utcnow : keeps cfg chat utcnow.
Proof. intros w. repeat split; apply extends_refl. Qed.

Lemma keeps_add_message row : keeps cfg chat (add_message row).
Proof.
  intros w. unfold add_message, commit.
  destruct (db_ok w 0%nat); repeat split; apply extends_refl.
Qed.

Lemma keeps_requests_post r : r ≠ welcome_call cfg chat → keeps cfg chat (requests_post r).
Proof.
  intros H w. unfold requests_post.
  destruct (net w 0%nat); simpl; repeat split; simpl;
    try apply extends_refl; by apply extends_snoc.
Qed.

Ltac frame :=
  repeat first
    [ apply keeps_ret | apply keeps_raise | apply keeps_emit | apply keeps_utcnow
    | apply keeps_add_message
    | apply keeps_logging; split; [discriminate | intros ?; discriminate]
    | apply keeps_requests_post; discriminate
    | apply keeps_bind; [|intros ?]
    | apply keeps_try; [|intros ?]
    | progress unfold socketio_emit ].

Lemma keeps_send_message target body :
  keeps cfg chat (send_message_to_telegram (IdStr target) body).
Proof. unfold send_message_to_telegram. frame. Qed.

Lemma keeps_send_photo target file caption :
  keeps cfg chat (send_photo_to_telegram (IdStr target) file caption).
Proof. unfold send_photo_to_telegram. frame. Qed.

Lemma keeps_get_file file : keeps cfg chat (get_telegram_file_info file).
Proof. unfold get_telegram_file_info. frame. Qed.

Lemma keeps_file_url_of info : keeps cfg chat (file_url_of cfg info).
Proof. unfold file_url_of. destruct info; frame. Qed.

Lemma keeps_last_photo photos : keeps cfg chat (last_photo photos).
Proof. unfold last_photo. destruct (last photos); frame. Qed.

Lemma keeps_handle_text_message c name body : keeps cfg chat (handle_text_message cfg c name body).
Proof. unfold handle_text_message. frame. Qed.

Lemma keeps_handle_photo_message c name file caption :
  keeps cfg chat (handle_photo_message cfg c name file caption).
Proof.
  unfold handle_photo_message.
  frame; auto using keeps_get_file, keeps_file_url_of, keeps_send_photo.
Qed.

Lemma keeps_handle_customer_service_reply message :
  keeps cfg chat (handle_customer_service_reply cfg message).
Proof.
  unfold handle_customer_service_reply. frame.
  destruct (m_reply_to_message message) as [quoted|]; [|frame].
  destruct (negb _); [frame|]. destruct (negb _); frame.
  - destruct (target_user_id _); frame.
  - destruct (m_photo message), (m_text message); frame;
      auto using keeps_get_file, keeps_file_url_of, keeps_send_photo,
                 keeps_send_message, keeps_last_photo.
Qed.

(** For the operator's own chat the gate is not even consulted. *)
Lemma handle_auto_reply_operator w :
  str_of_int chat = FORWARD_TO_ID cfg → handle_auto_reply cfg chat w = (Ok tt, w).
Proof. intros H. unfold handle_auto_reply. by rewrite bool_decide_false by (by intros []). Qed.

End Operator.

(** C5: whatever the operator's chat sends (a reply, or a private text or
    photo shaped like a user's), [handle_auto_reply] does nothing for it,
    and the whole event leaves the auto-reply table untouched, issues no
    welcome call to that chat and logs no auto-reply. *)
Theorem C5_operator_gets_no_welcome
    (cfg : Config) (data : Update) (message : TgMessage) (w : World) :
  u_message data = Some message →
  str_of_int (chat_id (m_chat message)) = FORWARD_TO_ID cfg →
  (∀ w0, handle_auto_reply cfg (chat_id (m_chat message)) w0 = (Ok tt, w0))
  ∧ quiet cfg (chat_id (m_chat message)) w (snd (telegram_webhook cfg data w)).
Proof.
  intros Hmsg Hop. split; [intros w0; by apply handle_auto_reply_operator|].
  assert (keeps cfg (chat_id (m_chat message))
                (handle_auto_reply cfg (chat_id (m_chat message)))) as Hauto.
  { intros w0. rewrite handle_auto_reply_operator by done. apply quiet_refl. }
  revert w. change (keeps cfg (chat_id (m_chat message)) (telegram_webhook cfg data)).
  unfold telegram_webhook. rewrite Hmsg. cbn zeta.
  apply keeps_bind; [apply keeps_logging; by split|]. intros _.
  destruct (_ && _).
  { apply keeps_bind; [apply keeps_handle_customer_service_reply|]. intros _.
    apply keeps_ret. }
  destruct (bool_decide _); [|apply keeps_ret].
  destruct (m_text message) as [body|]; [|destruct (m_photo message) as [photos|]].
  - apply keeps_bind; [apply keeps_handle_text_message|]. intros _.
    apply keeps_bind; [done|]. intros _. apply keeps_ret.
  - apply keeps_bind; [apply keeps_last_photo|]. intros photo.
    apply keeps_bind; [apply keeps_handle_photo_message|]. intros _.
    apply keeps_bind; [done|]. intros _. apply keeps_ret.
  - apply keeps_ret.
Qed.

Lemma C5_operator_gets_no_welcome_witness :
  let data := {| u_message := Some
       {| m_chat := {| chat_id := 999; first_name := Some (lit "Op");
                       chat_type := Some (lit "private") |};
          m_text := Some (lit "hello"); m_photo := None; m_caption := None;
          m_reply_to_message := None |} |} in
  handle_auto_reply demo_cfg 999 quiet_world = (Ok tt, quiet_world)
  ∧ quiet demo_cfg 999 quiet_world (snd (telegram_webhook demo_cfg data quiet_world)).
Proof.
  intros data.
  destruct (C5_operator_gets_no_welcome demo_cfg data _ quiet_world eq_refl eq_refl)
    as [Hauto Hquiet].
  split; [apply Hauto | apply Hquiet].
Defined.

(** ** End to end *)

(** C6, as amended: when Alice (chat 111, not the operator's chat) sends the
    private text "hi" and the commit and the send to the operator succeed,
    the store gains the row ("111", "Alice", "hi") and the operator is sent
    exactly "用户 Alice (ID: 111) 发来消息:\nhi"; when moreover Alice has
    no auto-reply record and the welcome send and its two commits succeed, the update is acknowledged, she is sent the
    configured welcome message, her record is created, and a second row
    authored by "Bot" is stored. *)
Theorem C6_alice_end_to_end (cfg : Config) (w : World) (r0 : option str) :
  FORWARD_TO_ID cfg ≠ lit "111" →
  db_ok w 0%nat = true →
  net w 0%nat = HttpOk r0 →
  let w' := snd (telegram_webhook cfg alice_says_hi w) in
  let forwarded := (SendMessage (IdStr (FORWARD_TO_ID cfg)) alice_forwarded, HttpOk r0) in
  (∃ later, messages w' = messages w ++ alice_row (clock w 0%nat) :: later)
  ∧ (∃ later, wire w' = wire w ++ forwarded :: later)
  ∧ (∀ r1, auto_replies w !! lit "111" = None →
       net w 1%nat = HttpOk r1 → db_ok w 1%nat = true → db_ok w 2%nat = true →
       fst (telegram_webhook cfg alice_says_hi w) = Ok status_ok
       ∧ messages w' = messages w ++ [alice_row (clock w 0%nat); bot_row cfg (clock w 2%nat)]
       ∧ wire w' = wire w ++ [forwarded;
                              (SendMessage (IdInt 111) (WELCOME_MESSAGE cfg), HttpOk r1)]
       ∧ auto_replies w' = <[lit "111" := Some (clock w 1%nat)]> (auto_replies w)).
Proof.
  intros Hop Hdb Hnet w' forwarded. subst w' forwarded.
  unfold telegram_webhook, handle_text_message, handle_auto_reply,
         should_send_auto_reply, update_auto_reply_record, alice_says_hi.
  cbn [u_message m_chat chat_id first_name chat_type m_text m_photo m_reply_to_message].
  change (str_of_int 111) with (lit "111").
  rewrite (bool_decide_false (lit "111" = _)) by congruence.
  rewrite (bool_decide_true (lit "111" ≠ _)) by congruence.
  cbn [andb]. rewrite bool_decide_true by done.
  run_prims. rewrite Hdb. simpl. rewrite Hnet. simpl.
  change (forward_text (lit "Alice") (lit "111") (lit "hi")) with alice_forwarded.
  split; [|split].
  1-2: destruct (auto_replies w !! lit "111") as [[last|]|]; simpl;
       try (destruct (cooldown_time cfg last); simpl; [|by eauto]);
       try destruct (_ <? _); simpl;
       try destruct (net w 1%nat); simpl;
       try destruct (db_ok w 1%nat); simpl;
       try destruct (db_ok w 2%nat); simpl;
       rewrite <- ?app_assoc; simpl; by eauto.
  - intros r1 -> Hnet1 Hdb1 Hdb2. simpl. rewrite Hnet1. simpl.
    rewrite Hdb1. simpl. rewrite Hdb2. simpl.
    by rewrite <- !app_assoc.
Qed.

Lemma C6_alice_end_to_end_witness :
  let w' := snd (telegram_webhook demo_cfg alice_says_hi quiet_world) in
  fst (telegram_webhook demo_cfg alice_says_hi quiet_world) = Ok status_ok
  ∧ messages w' = [alice_row 0; bot_row demo_cfg 2]
  ∧ wire w' = [(SendMessage (IdStr (lit "999")) alice_forwarded, HttpOk None);
               (SendMessage (IdInt 111) (lit "Welcome!"), HttpOk None)].
Proof.
  intros w'.
  destruct (C6_alice_end_to_end demo_cfg quiet_world None) as (_ & _ & Hnew);
    [discriminate | reflexivity | reflexivity |].
  destruct (Hnew None eq_refl eq_refl eq_refl eq_refl) as (Hack & Hrows & Hwire & _).
  split; [exact Hack|]. split; [exact Hrows | exact Hwire].
Defined.

(** The claim with the English sentence of the specification fails: the
    text sent to the operator is the Chinese one. *)
Lemma C6_forwarded_text_is_not_english :
  ¬ (∀ (cfg : Config) (w : World) (r0 : option str),
       FORWARD_TO_ID cfg ≠ lit "111" →
       db_ok w 0%nat = true →
       net w 0%nat = HttpOk r0 →
       ∃ response,
         (SendMessage (IdStr (FORWARD_TO_ID cfg)) alice_forwarded_in_english, response)
         ∈ wire (snd (telegram_webhook cfg alice_says_hi w))).
Proof.
  intros H.
  destruct (H demo_cfg quiet_world None) as [response Hin];
    [discriminate | reflexivity | reflexivity |].
  set (calls := wire _) in Hin. vm_compute in calls. subst calls.
  rewrite !elem_of_cons in Hin.
  destruct Hin as [Hin|[Hin|Hin]];
    [vm_compute in Hin; discriminate Hin.. | by apply elem_of_nil in Hin].
Qed.

(** ** The dashboard page *)

Lemma insert_desc_perm m l : insert_desc m l ≡ₚ m :: l.
Proof.
  induction l as [|x l IH]; simpl; [done|].
  destruct (_ <=? _); [done|]. by rewrite IH, Permutation_swap.
Qed.

Lemma insert_desc_sorted m l :
  StronglySorted newer_first l → StronglySorted newer_first (insert_desc m l).
Proof.
  induction 1 as [|x l Hl IH Hx]; simpl; [by repeat constructor|].
  destruct (Z.leb_spec (timestamp x) (timestamp m)) as [Hle|Hlt].
  - constructor; [by constructor|]. constructor; [done|].
    eapply Forall_impl; [exact Hx|]. unfold newer_first. intros; simpl in *. lia.
  - constructor; [done|]. rewrite insert_desc_perm. constructor; [|done].
    unfold newer_first. lia.
Qed.

(** The store always has an answer to the ordered query. *)
Lemma sort_desc_ordered table : order_by_timestamp_desc table (sort_desc table).
Proof.
  split.
  - induction table as [|m l IH]; simpl; [done|]. by rewrite insert_desc_perm, IH.
  - induction table as [|m l IH]; simpl; [constructor | by apply insert_desc_sorted].
Qed.

Lemma older_first_inj table x y :
  StronglySorted older_first table → x ∈ table → y ∈ table →
  timestamp x = timestamp y → x = y.
Proof.
  induction 1 as [|z l Hl IH Hz]; intros Hx Hy Heq; [by apply elem_of_nil in Hx|].
  rewrite Forall_forall in Hz. unfold older_first in Hz.
  apply elem_of_cons in Hx as [->|Hx]; apply elem_of_cons in Hy as [->|Hy]; try done.
  - specialize (Hz _ Hy). lia.
  - specialize (Hz _ Hx). lia.
  - by apply IH.
Qed.

Lemma reverse_newer_first table :
  StronglySorted older_first table → StronglySorted newer_first (reverse table).
Proof.
  induction 1 as [|z l Hl IH Hz]; [constructor|].
  rewrite reverse_cons. apply StronglySorted_app_2; [|done|by repeat constructor].
  intros x1 x2 Hx1 Hx2. rewrite elem_of_reverse in Hx1.
  apply list_elem_of_singleton in Hx2. subst x2.
  rewrite Forall_forall in Hz. specialize (Hz _ Hx1).
  unfold newer_first, older_first in *. lia.
Qed.

(** With strictly increasing timestamps the query has one answer only. *)
Lemma order_by_timestamp_desc_unique table result :
  StronglySorted older_first table →
  order_by_timestamp_desc table result → result = reverse table.
Proof.
  intros Hsorted [Hperm Hdesc].
  apply (StronglySorted_unique_strong newer_first);
    [|done|by apply reverse_newer_first|by rewrite reverse_Permutation].
  intros x1 x2 Hx1 Hx2 H12 H21. rewrite elem_of_reverse in Hx2. rewrite Hperm in Hx1.
  apply (older_first_inj table); try done. unfold newer_first in *. lia.
Qed.

Lemma window_reverse n table : window n (reverse table) = drop (length table - n) table.
Proof. unfold window. by rewrite reverse_take, length_reverse, reverse_involutive. Qed.

Lemma window_length n result : (length (window n result) ≤ n)%nat.
Proof. unfold window. rewrite length_reverse, length_take. lia. Qed.

(** C7, as amended: the page has no [limit] parameter, its window is the
    constant 5000, and rows are ordered by timestamp.  For a table whose
    timestamps strictly increase in insertion order the store has an answer,
    and for every answer the page shows exactly the last 5000 rows of the
    table (all of them when there are fewer), oldest first; no page ever
    shows more than 5000 rows. *)
Theorem C7_recent_window (cfg : Config) (table : list Message) :
  StronglySorted older_first table →
  order_by_timestamp_desc table (sort_desc table)
  ∧ (∀ result, order_by_timestamp_desc table result →
       home cfg (Some (SECURE_TOKEN cfg)) result
       = Display (drop (length table - 5000) table))
  ∧ (∀ token result shown,
       home cfg token result = Display shown → (length shown ≤ 5000)%nat).
Proof.
  intros Hsorted. split; [apply sort_desc_ordered|]. split.
  - intros result Hresult. unfold home. rewrite bool_decide_false by (by intros []).
    rewrite (order_by_timestamp_desc_unique table result) by done.
    by rewrite window_reverse.
  - intros token result shown. unfold home. destruct (bool_decide _); [done|].
    intros [= <-]. apply window_length.
Qed.

Lemma C7_recent_window_witness :
  let table := [alice_row 0; alice_row 1] in
  home demo_cfg (Some (lit "s3cret")) (sort_desc table) = Display table.
Proof.
  intros table.
  assert (StronglySorted older_first table) as Hsorted
    by (repeat constructor; unfold older_first; simpl; lia).
  destruct (C7_recent_window demo_cfg table Hsorted) as (Hanswer & Hpage & _).
  exact (Hpage _ Hanswer).
Defined.

Lemma replicate_newer_first n x : StronglySorted newer_first (replicate n x).
Proof.
  induction n as [|k IH]; simpl; constructor; [done|].
  apply Forall_replicate. unfold newer_first. lia.
Qed.

(** Rows stored after the clock stepped back carry earlier timestamps than
    the row stored before them: the page keeps that row and drops one of
    the rows appended after it. *)
Lemma stale_window (n : nat) (late early : Message) :
  timestamp early < timestamp late → n ≠ 0%nat →
  let table := late :: replicate n early in
  order_by_timestamp_desc table table
  ∧ (n < length table)%nat
  ∧ window n table ≠ drop (length table - n) table.
Proof.
  intros Hlt Hn table. subst table. split; [|split].
  - split; [done|]. constructor; [apply replicate_newer_first|].
    apply Forall_replicate. unfold newer_first. lia.
  - simpl. rewrite length_replicate. lia.
  - cbn [length]. rewrite length_replicate.
    replace (S n - n)%nat with 1%nat by lia. cbn [drop]. rewrite drop_0.
    destruct n as [|k]; [done|]. unfold window. cbn [take]. rewrite reverse_cons.
    intros Heq.
    assert (late ∈ replicate (S k) early) as Hin
      by (rewrite <- Heq; apply elem_of_app; right; by apply list_elem_of_singleton).
    apply elem_of_replicate_inv in Hin. subst late. lia.
Qed.

(** The claim for every store state fails: 5001 rows, the first of them
    stamped later than the 5000 appended after it. *)
Lemma C7_clock_step_back_breaks_window :
  ¬ (∀ (cfg : Config) (table result : list Message),
       (5000 < length table)%nat →
       order_by_timestamp_desc table result →
       home cfg (Some (SECURE_TOKEN cfg)) result
       = Display (drop (length table - 5000) table)).
Proof.
  intros H.
  destruct (stale_window 5000 (alice_row 1) (alice_row 0)) as (Hanswer & Hlen & Hne);
    [simpl; lia | discriminate |].
  specialize (H demo_cfg _ _ Hlen Hanswer). unfold home in H.
  rewrite bool_decide_false in H by (by intros []).
  injection H as H. by apply Hne.
Qed.

(** ** Concrete runs *)

Lemma C3_reply_without_marker_witness :
  let data := {| u_message := Some (operator_reply (lit "hello") (lit "ok")) |} in
  let w' := snd (telegram_webhook demo_cfg data quiet_world) in
  fst (telegram_webhook demo_cfg data quiet_world) = Ok status_ok
  ∧ wire w' = [] ∧ messages w' = [] ∧ emitted w' = [].
Proof.
  intros data w'.
  destruct (C3_reply_without_marker demo_cfg data _ (quoted_text (lit "hello")) quiet_world
              eq_refl eq_refl eq_refl eq_refl) as (Hack & _ & Hwire & Hrows & _ & Hemit).
  split; [exact Hack|]. split; [exact Hwire|]. split; [exact Hrows | exact Hemit].
Defined.

Lemma C8_wrong_secret_witness :
  let data := {| d_secure_token := Some (lit "guess"); d_sender_id := Some (lit "111");
                 d_text := Some (lit "hi") |} in
  let w' := snd (handle_send_message demo_cfg data quiet_world) in
  emitted w' = [{| event := error (lit "Invalid secure_token"); to_all := false |}]
  ∧ messages w' = [] ∧ wire w' = [].
Proof.
  intros data w'.
  destruct (C8_wrong_secret demo_cfg data quiet_world) as (_ & Hemit & Hrows & _ & Hwire);
    [discriminate|].
  split; [exact Hemit|]. split; [exact Hrows | exact Hwire].
Defined.

Lemma C9_failed_send_is_not_stored_witness :
  let data := {| d_secure_token := Some (lit "s3cret"); d_sender_id := Some (lit "111");
                 d_text := Some (lit "hi") |} in
  let w' := snd (handle_send_message demo_cfg data offline_world) in
  messages w' = []
  ∧ emitted w' = [{| event := error (lit "Failed to send message"); to_all := false |}].
Proof.
  intros data w'.
  destruct (C9_failed_send_is_not_stored demo_cfg data (lit "111") (lit "hi") offline_world)
    as (_ & _ & Hrows & _ & Hemit); try reflexivity; try discriminate.
  split; [exact Hrows | exact Hemit].
Defined.

Lemma C2_text_relay_failure_escapes_witness :
  fst (telegram_webhook demo_cfg alice_says_hi offline_world) = Raise HTTPError.
Proof.
  destruct (C2_text_relay_failure_escapes demo_cfg alice_says_hi _ (lit "hi") offline_world
              eq_refl) as [_ Hsend]; [discriminate | reflexivity | reflexivity |].
  destruct (Hsend eq_refl eq_refl) as [Hraise _]. exact Hraise.
Defined.

Lemma C10_marker_without_terminator_witness :
  let data := {| u_message := Some (operator_reply (lit "from ID: 42 ") (lit "ok")) |} in
  target_user_id (lit "from ID: 42 ") = Some (lit "42")
  ∧ wire (snd (telegram_webhook demo_cfg data quiet_world))
    = [(SendMessage (IdStr (lit "42")) (lit "ok"), HttpOk None)].
Proof.
  intros data.
  destruct (C10_marker_without_terminator demo_cfg data _ (quoted_text (lit "from ID: 42 "))
              5%nat quiet_world eq_refl eq_refl eq_refl eq_refl eq_refl)
    as (Htarget & _ & _ & Htext & _).
  split; [exact Htarget | exact (Htext (lit "ok") eq_refl eq_refl)].
Defined.

(** * Further properties of the handlers *)

(** ** Exceptions: what stays inside a handler and what leaves it *)

Section NeverRaises.

Lemma never_raises_ret {A} (a : A) : never_raises (ret a).
Proof. intros w. by exists a. Qed.

Lemma never_raises_bind {A B} (m : M A) (k : A → M B) :
  never_raises m → (∀ a, never_raises (k a)) → never_raises (bind m k).
Proof.
  intros Hm Hk w. unfold bind. destruct (Hm w) as [a Ha].
  destruct (m w) as [r w1]. simpl in Ha. subst r. apply Hk.
Qed.

(** A handler that never raises makes the whole [try] safe, whatever the
    body does. *)
Lemma never_raises_try {A} (m : M A) (h : Exn → M A) :
  (∀ e, never_raises (h e)) → never_raises (try_except m h).
Proof.
  intros Hh w. unfold try_except. destruct (m w) as [[a|e] w1]; [by exists a|].
  apply Hh.
Qed.

Lemma never_raises_logging lvl msg : never_raises (logging lvl msg).
Proof. intros w. by exists tt. Qed.

Lemma never_raises_emit e b : never_raises (emit e b).
Proof. intros w. by exists tt. Qed.

End NeverRaises.

Ltac safe :=
  repeat first
    [ apply never_raises_ret | apply never_raises_logging | apply never_raises_emit
    | apply never_raises_try; intros ?
    | apply never_raises_bind; [|intros ?] ].

Lemma never_raises_unit (m : M unit) : never_raises m → ∀ w, fst (m w) = Ok tt.
Proof. intros H w. by destruct (H w) as [[] ?]. Qed.

Lemma safe_handle_photo_message cfg chat sender_name file caption :
  never_raises (handle_photo_message cfg chat sender_name file caption).
Proof. unfold handle_photo_message. safe. Qed.

Lemma safe_handle_customer_service_reply cfg message :
  never_raises (handle_customer_service_reply cfg message).
Proof.
  unfold handle_customer_service_reply. safe.
  destruct (m_reply_to_message message); [destruct (negb _); [|destruct (negb _)]|]; safe.
Qed.

Lemma safe_handle_send_message cfg data : never_raises (handle_send_message cfg data).
Proof.
  unfold handle_send_message. safe. destruct (bool_decide _); safe.
  destruct (d_sender_id data) as [[|? ?]|], (d_text data) as [[|? ?]|]; safe.
Qed.

Lemma handle_photo_message_never_raises_aux cfg chat sender_name file caption w :
  fst (handle_photo_message cfg chat sender_name file caption w) = Ok tt.
Proof. apply never_raises_unit, safe_handle_photo_message. Qed.


(** X1: whatever the Telegram API and the store do, [handle_photo_message]
    returns normally. *)
Theorem handle_photo_message_never_raises
    (cfg : Config) (chat : Z) (sender_name file caption : str) (w : World) :
  fst (handle_photo_message cfg chat sender_name file caption w) = Ok tt.
Proof. apply never_raises_unit, safe_handle_photo_message. Qed.

(** X2: [handle_customer_service_reply] returns normally for every message,
    and the last record it logs tells the outcome.  Either it is an error
    record ("No reply_to_message found" for a quoted object that is absent
    or has no key, "No user ID found in original message" without marker,
    "Error handling customer service reply" for an empty photo list, a
    failed call or a failed commit), and then no row was stored and
    nothing emitted; or it is the success record for the extracted target,
    and then the row was stored, unless the reply had neither photo nor
    text. *)
Theorem handle_customer_service_reply_logs_failures
    (cfg : Config) (message : TgMessage) (w : World) :
  let w' := snd (handle_customer_service_reply cfg message w) in
  fst (handle_customer_service_reply cfg message w) = Ok tt
  ∧ (m_reply_to_message message = None →
     log w' = log w ++ [(DEBUG, Handling_customer_service_reply message);
                        (ERROR, No_reply_to_message_found)])
  ∧ (∀ quoted, m_reply_to_message message = Some quoted → truthy quoted = false →
     log w' = log w ++ [(DEBUG, Handling_customer_service_reply message);
                        (ERROR, No_reply_to_message_found)])
  ∧ (∀ quoted, m_reply_to_message message = Some quoted → truthy quoted = true →
     contains ID_token (original_text quoted) = false →
     log w' = log w ++ [(DEBUG, Handling_customer_service_reply message);
                        (ERROR, No_user_ID_found_in_original_message)])
  ∧ ∃ earlier final,
      log w' = earlier ++ [final]
      ∧ ((∃ msg, final = (ERROR, msg)
                 ∧ (msg = No_reply_to_message_found
                    ∨ msg = No_user_ID_found_in_original_message
                    ∨ ∃ e, msg = Error_handling_customer_service_reply e)
                 ∧ messages w' = messages w ∧ emitted w' = emitted w)
         ∨ (∃ quoted target,
              m_reply_to_message message = Some quoted
              ∧ target_user_id (original_text quoted) = Some target
              ∧ final = (INFO, Successfully_handled_customer_service_reply target)
              ∧ (length (messages w') = S (length (messages w))
                 ∨ (m_photo message = None ∧ m_text message = None)))).
Proof.
  intros w'. subst w'.
  split; [apply never_raises_unit, safe_handle_customer_service_reply|].
  unfold handle_customer_service_reply.
  split; [|split; [|split]].
  - intros ->. run_prims. by rewrite <- app_assoc.
  - intros quoted -> ->. run_prims. by rewrite <- app_assoc.
  - intros quoted -> -> ->. run_prims. by rewrite <- app_assoc.
  - destruct (m_reply_to_message message) as [quoted|];
      [|run_prims; eexists _, _; split; [reflexivity|]; left; eauto 10].
    destruct (truthy quoted);
      [|run_prims; eexists _, _; split; [reflexivity|]; left; eauto 10].
    destruct (contains ID_token (original_text quoted));
      [|run_prims; eexists _, _; split; [reflexivity|]; left; eauto 10].
    destruct (target_user_id (original_text quoted)) as [target|] eqn:Htarget;
      [|run_prims; eexists _, _; split; [reflexivity|]; left; eauto 10].
    destruct (m_photo message) as [photos|] eqn:Hphoto;
      [destruct (last photos) as [photo|] eqn:Hlast
      |destruct (m_text message) as [body|] eqn:Htext];
      run_prims; rewrite ?Hlast; simpl;
      try destruct (net w 0%nat) as [|[path|]]; simpl;
      try destruct (net w 1%nat); simpl;
      try destruct (db_ok w 0%nat); simpl;
      eexists _, _; (split; [reflexivity|]);
      first [ left; by eauto 10
            | right; exists quoted, target; repeat split; try done;
              first [ left; rewrite length_app; simpl; lia | right; done ] ].
Qed.

Lemma handle_customer_service_reply_logs_failures_witness :
  let message :=
    {| m_chat := {| chat_id := 999; first_name := Some (lit "Op");
                    chat_type := Some (lit "private") |};
       m_text := Some (lit "ok"); m_photo := None; m_caption := None;
       m_reply_to_message :=
         Some {| q_caption := None; q_text := None; q_other_keys := false |} |} in
  log (snd (handle_customer_service_reply demo_cfg message quiet_world))
  = [(DEBUG, Handling_customer_service_reply message); (ERROR, No_reply_to_message_found)].
Proof.
  intros message.
  destruct (handle_customer_service_reply_logs_failures demo_cfg message quiet_world)
    as (_ & _ & Hfalsy & _).
  exact (Hfalsy _ eq_refl eq_refl).
Defined.

(** X3: an exception leaves [handle_auto_reply] only from the gate, which is
    consulted before the [try]: for the operator's chat nothing happens;
    when the gate raises (a session in pending rollback, or a cooldown
    that overflows) its exception escapes with the world unchanged; when
    the gate answers, the handler returns normally, and if it fired the
    last log record is "Sent auto-reply" when the send and both commits
    succeeded and the error record of the step that failed otherwise. *)
Theorem handle_auto_reply_raises_only_from_gate (cfg : Config) (chat : Z) (w : World) :
  let user := str_of_int chat in
  let w' := snd (handle_auto_reply cfg chat w) in
  (user = FORWARD_TO_ID cfg → handle_auto_reply cfg chat w = (Ok tt, w))
  ∧ (user ≠ FORWARD_TO_ID cfg →
     (∀ e, fst (should_send_auto_reply cfg user w) = Raise e →
           handle_auto_reply cfg chat w = (Raise e, w))
     ∧ (fst (should_send_auto_reply cfg user w) = Ok false →
        fst (handle_auto_reply cfg chat w) = Ok tt ∧ log w' = log w ∧ wire w' = wire w)
     ∧ (fst (should_send_auto_reply cfg user w) = Ok true →
        fst (handle_auto_reply cfg chat w) = Ok tt
        ∧ ∃ earlier final,
            log w' = earlier ++ [final]
            ∧ (net w 0%nat = HttpFail →
               final = (ERROR, Error_sending_auto_reply HTTPError))
            ∧ (net w 0%nat ≠ HttpFail → db_ok w 0%nat = false →
               final = (ERROR, Error_sending_auto_reply SQLAlchemyError))
            ∧ (net w 0%nat ≠ HttpFail → db_ok w 0%nat = true → db_ok w 1%nat = false →
               final = (ERROR, Error_sending_auto_reply SQLAlchemyError))
            ∧ (net w 0%nat ≠ HttpFail → db_ok w 0%nat = true → db_ok w 1%nat = true →
               final = (INFO, Sent_auto_reply_to_user chat))))
  ∧ (∀ e, fst (should_send_auto_reply cfg user w) = Raise e ↔
          (pending_rollback w = true ∧ e = SQLAlchemyError)
          ∨ (pending_rollback w = false ∧ e = OverflowError
             ∧ ∃ last, auto_replies w !! user = Some (Some last)
                       ∧ cooldown_time cfg last = None)).
Proof.
  intros user w'. subst user w'. split; [|split].
  - intros Hop. unfold handle_auto_reply. by rewrite bool_decide_false by (by intros []).
  - intros Huser. unfold handle_auto_reply. rewrite bool_decide_true by done.
    unfold bind.
    pose proof (should_send_auto_reply_frame cfg (str_of_int chat) w) as Hframe.
    pose proof (should_send_auto_reply_raises cfg (str_of_int chat) w) as Hraise.
    pose proof (should_send_auto_reply_eq cfg (str_of_int chat) w) as Heq.
    destruct (should_send_auto_reply cfg (str_of_int chat) w) as [r w0].
    simpl in Hframe, Hraise, Heq |- *.
    destruct Hframe as (_ & _ & Hw & _ & Hl & Hn & Hs).
    split; [|split].
    + intros e ->. by rewrite (Hraise e eq_refl).
    + intros ->. simpl. by rewrite Hl, Hw.
    + intros ->. unfold update_auto_reply_record. run_prims.
      rewrite Hn. clear Hraise.
      destruct (net w 0%nat) eqn:Hnet; simpl.
      { split; [done|]. eexists _, _. split; [reflexivity|]. by repeat split. }
      rewrite Hs. destruct (pending_rollback w); [done|].
      simpl. destruct (db_ok w 0%nat); simpl.
      * destruct (db_ok w 1%nat); simpl; (split; [done|]);
          eexists _, _; (split; [reflexivity|]); by repeat split.
      * split; [done|]. eexists _, _. split; [reflexivity|]. by repeat split.
  - intros e. rewrite should_send_auto_reply_eq.
    destruct (pending_rollback w).
    + split; [intros [= <-]; by left | intros [[_ ->]|[? _]]; done].
    + destruct (auto_replies w !! str_of_int chat) as [[last|]|] eqn:E.
      * destruct (cooldown_time cfg last) eqn:Hc.
        -- split; [done|]. intros [[? _]|(_ & _ & last' & [= <-] & Hc')]; [done|].
           by rewrite Hc in Hc'.
        -- split; [intros [= <-]; right; eauto 10|].
           by intros [[? _]|(_ & -> & _)].
      * split; [done | intros [[? _]|(_ & _ & ? & ? & _)]; done].
      * split; [done | intros [[? _]|(_ & _ & ? & ? & _)]; done].
Qed.

Lemma handle_auto_reply_raises_only_from_gate_witness :
  handle_auto_reply demo_cfg 111 rolled_back_world
  = (Raise SQLAlchemyError, rolled_back_world)
  ∧ fst (handle_auto_reply demo_cfg 111 quiet_world) = Ok tt.
Proof.
  split.
  - destruct (handle_auto_reply_raises_only_from_gate demo_cfg 111 rolled_back_world)
      as (_ & Huser & _).
    destruct Huser as (Hraise & _); [discriminate|]. apply Hraise. reflexivity.
  - destruct (handle_auto_reply_raises_only_from_gate demo_cfg 111 quiet_world)
      as (_ & Huser & _).
    destruct Huser as (_ & _ & Hfire); [discriminate|].
    destruct Hfire as [Hok _]; [reflexivity | exact Hok].
Defined.

(** X4: [handle_send_message] returns normally for every payload. *)
Theorem handle_send_message_never_raises (cfg : Config) (data : SendData) (w : World) :
  fst (handle_send_message cfg data w) = Ok tt.
Proof. apply never_raises_unit, safe_handle_send_message. Qed.

Lemma webhook_dispatch_false cfg message :
  ¬ (str_of_int (chat_id (m_chat message)) = FORWARD_TO_ID cfg
     ∧ is_Some (m_reply_to_message message)) →
  bool_decide (str_of_int (chat_id (m_chat message)) = FORWARD_TO_ID cfg)
  && bool_decide (is_Some (m_reply_to_message message)) = false.
Proof.
  intros H. apply andb_false_iff. rewrite !bool_decide_eq_false.
  destruct (decide (str_of_int (chat_id (m_chat message)) = FORWARD_TO_ID cfg));
    [right|left]; naive_solver.
Qed.





(** ** Updates the webhook does not relay *)

(** Neither an operator reply nor a private chat. *)
(** X6: an update without message, a message from a chat that is not
    private (a group, a channel), and a private message with neither text
    nor photo are acknowledged and only logged: nothing is stored, sent or
    emitted.  (Replies of the operator are relayed whatever the chat type.) *)
Theorem telegram_webhook_ignores (cfg : Config) (data : Update) (w : World) :
  u_message data = None
  ∨ (∃ message, u_message data = Some message
       ∧ ¬ (str_of_int (chat_id (m_chat message)) = FORWARD_TO_ID cfg
            ∧ is_Some (m_reply_to_message message))
       ∧ (chat_type (m_chat message) ≠ Some (lit "private")
          ∨ (m_text message = None ∧ m_photo message = None))) →
  telegram_webhook cfg data w
  = (Ok status_ok, snd (logging DEBUG (Webhook_received_data data) w)).
Proof.
  intros [Hnone|(message & Hmsg & Hreply & Hshape)]; unfold telegram_webhook.
  - rewrite Hnone. by run_prims.
  - rewrite Hmsg. cbn zeta. rewrite webhook_dispatch_false by done.
    destruct Hshape as [Hnp|[Htext Hphoto]].
    + rewrite bool_decide_false by done. by run_prims.
    + rewrite Htext, Hphoto. destruct (bool_decide _); by run_prims.
Qed.

Lemma telegram_webhook_ignores_witness :
  let data := {| u_message := Some
       {| m_chat := {| chat_id := 111; first_name := Some (lit "Alice");
                       chat_type := Some (lit "group") |};
          m_text := Some (lit "hi"); m_photo := None; m_caption := None;
          m_reply_to_message := None |} |} in
  telegram_webhook demo_cfg data quiet_world
  = (Ok status_ok, snd (logging DEBUG (Webhook_received_data data) quiet_world)).
Proof.
  intros data. apply telegram_webhook_ignores. right. eexists. split; [reflexivity|].
  split; [intros [Hop _]; discriminate Hop | left; discriminate].
Defined.

(** X7: a private photo message whose photo list is empty makes
    [message['photo'][-1]] fail outside every [try]: the [IndexError]
    leaves the webhook, after the debug record and before any other
    effect. *)
Theorem telegram_webhook_empty_photo_list
    (cfg : Config) (data : Update) (message : TgMessage) (w : World) :
  u_message data = Some message →
  ¬ (str_of_int (chat_id (m_chat message)) = FORWARD_TO_ID cfg
     ∧ is_Some (m_reply_to_message message)) →
  chat_type (m_chat message) = Some (lit "private") →
  m_text message = None →
  m_photo message = Some [] →
  telegram_webhook cfg data w
  = (Raise IndexError, snd (logging DEBUG (Webhook_received_data data) w)).
Proof.
  intros Hmsg Hreply Hprivate Htext Hphoto. unfold telegram_webhook.
  rewrite Hmsg. cbn zeta. rewrite webhook_dispatch_false by done.
  rewrite Hprivate, Htext, Hphoto. rewrite bool_decide_true by done. by run_prims.
Qed.

Lemma telegram_webhook_empty_photo_list_witness :
  fst (telegram_webhook demo_cfg (alice_sends_photo []) quiet_world) = Raise IndexError.
Proof.
  rewrite (telegram_webhook_empty_photo_list demo_cfg (alice_sends_photo []) _ quiet_world
             eq_refl); [reflexivity | | reflexivity..].
  intros [Hop _]. discriminate Hop.
Defined.

(** ** Relaying a photo *)

(** X8: [handle_photo_message] contacts the operator before it stores
    anything: when the file metadata cannot be fetched, carry no
    [file_path], or the photo cannot be sent, no row is stored and nothing
    is emitted; the error is logged. *)
Theorem handle_photo_message_failed_send
    (cfg : Config) (chat : Z) (sender_name file caption : str) (w : World) :
  net w 0%nat = HttpFail
  ∨ net w 0%nat = HttpOk None
  ∨ (∃ path, net w 0%nat = HttpOk (Some path)) ∧ net w 1%nat = HttpFail →
  let w' := snd (handle_photo_message cfg chat sender_name file caption w) in
  messages w' = messages w
  ∧ emitted w' = emitted w
  ∧ auto_replies w' = auto_replies w
  ∧ ∃ e earlier, log w' = earlier ++ [(ERROR, Error_handling_photo_message e)].
Proof.
  intros Hnet. unfold handle_photo_message. run_prims.
  destruct Hnet as [->|[->|[[path ->] Hnet]]]; simpl.
  - repeat split; try done. by eexists _, _.
  - repeat split; try done. by eexists _, _.
  - rewrite Hnet. simpl. repeat split; try done. by eexists _, _.
Qed.

Lemma handle_photo_message_failed_send_witness :
  let w' := snd (handle_photo_message demo_cfg 111 (lit "Alice") (lit "f1") (lit "a cat")
                                      offline_world) in
  messages w' = [] ∧ emitted w' = [].
Proof.
  intros w'.
  destruct (handle_photo_message_failed_send demo_cfg 111 (lit "Alice") (lit "f1")
              (lit "a cat") offline_world) as (Hrows & Hemit & _); [by left|].
  split; [exact Hrows | exact Hemit].
Defined.

(** X9: when the metadata arrive with a [file_path] and the photo and the
    commit go through, the operator is sent the photo with the caption that
    carries the marker, and one row is stored and broadcast whose text is
    "[图片] <url> <caption>" and whose media URL is
    https://api.telegram.org/file/bot<BOT_TOKEN>/<file_path>. *)
Theorem handle_photo_message_relays
    (cfg : Config) (chat : Z) (sender_name file caption path : str)
    (r : option str) (w : World) :
  net w 0%nat = HttpOk (Some path) →
  net w 1%nat = HttpOk r →
  db_ok w 0%nat = true →
  let w' := snd (handle_photo_message cfg chat sender_name file caption w) in
  let url := lit "https://api.telegram.org/file/bot" ++ BOT_TOKEN cfg ++ lit "/" ++ path in
  let body := lit_picture ++ url ++ lit " " ++ caption in
  wire w' = wire w ++
    [(GetFile file, HttpOk (Some path));
     (SendPhoto (IdStr (FORWARD_TO_ID cfg)) file
                (forward_caption sender_name (str_of_int chat) caption), HttpOk r)]
  ∧ messages w' = messages w ++
      [{| sender_id := str_of_int chat; sender_name := sender_name; text := body;
          timestamp := clock w 0%nat;
          media_type := Some (lit "photo"); media_url := Some url |}]
  ∧ emitted w' = emitted w ++
      [{| event := new_message (IdInt chat) sender_name body
                               (format_datetime (clock w 0%nat));
          to_all := true |}]
  ∧ auto_replies w' = auto_replies w.
Proof.
  intros Hfile Hsend Hdb. unfold handle_photo_message. run_prims.
  rewrite Hfile. simpl. rewrite Hsend. simpl. rewrite Hdb. simpl.
  by rewrite <- app_assoc.
Qed.

Lemma handle_photo_message_relays_witness :
  let w := mkWorld [] ∅ [] [] [] (fun _ => HttpOk (Some (lit "photos/1.jpg")))
                   (Usable (fun _ => true)) (fun _ => 7) in
  media_url <$> messages (snd (handle_photo_message demo_cfg 111 (lit "Alice") (lit "f1")
                                                    (lit "a cat") w))
  = [Some (lit "https://api.telegram.org/file/bot42:token/photos/1.jpg")].
Proof.
  intros w.
  destruct (handle_photo_message_relays demo_cfg 111 (lit "Alice") (lit "f1") (lit "a cat")
              (lit "photos/1.jpg") (Some (lit "photos/1.jpg")) w eq_refl eq_refl eq_refl)
    as (_ & Hrows & _).
  rewrite Hrows. reflexivity.
Defined.

(** ** Relaying an operator reply *)

(** X10: an operator reply with text whose quoted message yields the target
    [target] is sent to that target first; the row (operator id, "You",
    text) is stored and broadcast exactly when the send and the commit
    succeed, and when the send fails nothing is stored or emitted. *)
Theorem handle_customer_service_reply_text
    (cfg : Config) (message : TgMessage) (quoted : Quoted) (target body : str) (w : World) :
  m_reply_to_message message = Some quoted →
  contains ID_token (original_text quoted) = true →
  target_user_id (original_text quoted) = Some target →
  m_photo message = None →
  m_text message = Some body →
  let w' := snd (handle_customer_service_reply cfg message w) in
  let row := {| sender_id := FORWARD_TO_ID cfg; sender_name := lit "You"; text := body;
                timestamp := clock w 0%nat; media_type := None; media_url := None |} in
  wire w' = wire w ++ [(SendMessage (IdStr target) body, net w 0%nat)]
  ∧ auto_replies w' = auto_replies w
  ∧ (net w 0%nat = HttpFail → messages w' = messages w ∧ emitted w' = emitted w)
  ∧ (net w 0%nat ≠ HttpFail → db_ok w 0%nat = false →
     messages w' = messages w ∧ emitted w' = emitted w)
  ∧ (net w 0%nat ≠ HttpFail → db_ok w 0%nat = true →
     messages w' = messages w ++ [row]
     ∧ emitted w' = emitted w ++
         [{| event := new_message (IdStr (FORWARD_TO_ID cfg)) (lit "You") body
                                  (format_datetime (clock w 0%nat));
             to_all := true |}]).
Proof.
  intros Hq Hin Htarget Hphoto Htext. unfold handle_customer_service_reply.
  rewrite Hq, (marker_truthy _ Hin), Hin, Htarget, Hphoto, Htext. run_prims.
  destruct (net w 0%nat) as [|r]; simpl.
  - repeat split; done.
  - destruct (db_ok w 0%nat); simpl; repeat split; done.
Qed.

Lemma handle_customer_service_reply_text_witness :
  let message := operator_reply (forward_text (lit "Alice") (lit "111") (lit "hi"))
                                (lit "hello Alice") in
  let w' := snd (handle_customer_service_reply demo_cfg message quiet_world) in
  wire w' = [(SendMessage (IdStr (lit "111")) (lit "hello Alice"), HttpOk None)]
  ∧ sender_name <$> messages w' = [lit "You"].
Proof.
  intros message w'.
  destruct (handle_customer_service_reply_text demo_cfg message _ (lit "111")
              (lit "hello Alice") quiet_world eq_refl eq_refl eq_refl eq_refl eq_refl)
    as (Hwire & _ & _ & _ & Hok).
  split; [exact Hwire|].
  destruct Hok as [Hrows _]; [discriminate | reflexivity |].
  subst w'. rewrite Hrows. reflexivity.
Defined.

(** ** The dashboard socket *)

(** X11: a payload with the right secret, a target and a text, whose send
    and commit succeed, is sent to the target, stored as a row authored by
    "You" under the target's id, and broadcast to every session. *)
Theorem handle_send_message_relays
    (cfg : Config) (data : SendData) (chat body : str) (r : option str) (w : World) :
  d_secure_token data = Some (SECURE_TOKEN cfg) →
  d_sender_id data = Some chat → chat ≠ [] →
  d_text data = Some body → body ≠ [] →
  net w 0%nat = HttpOk r →
  db_ok w 0%nat = true →
  let w' := snd (handle_send_message cfg data w) in
  wire w' = wire w ++ [(SendMessage (IdStr chat) body, HttpOk r)]
  ∧ messages w' = messages w ++
      [{| sender_id := chat; sender_name := lit "You"; text := body;
          timestamp := clock w 0%nat; media_type := None; media_url := None |}]
  ∧ emitted w' = emitted w ++
      [{| event := new_message (IdStr chat) (lit "You") body
                               (format_datetime (clock w 0%nat));
          to_all := true |}]
  ∧ auto_replies w' = auto_replies w.
Proof.
  intros Htoken Hchat Hne Hbody Hne' Hnet Hdb. unfold handle_send_message.
  rewrite Htoken, Hchat, Hbody. rewrite bool_decide_false by (by intros []).
  destruct chat as [|c chat]; [done|]. destruct body as [|b body]; [done|].
  run_prims. rewrite Hnet. simpl. rewrite Hdb. by simpl.
Qed.

Lemma handle_send_message_relays_witness :
  let data := {| d_secure_token := Some (lit "s3cret"); d_sender_id := Some (lit "111");
                 d_text := Some (lit "hi") |} in
  let w' := snd (handle_send_message demo_cfg data quiet_world) in
  wire w' = [(SendMessage (IdStr (lit "111")) (lit "hi"), HttpOk None)]
  ∧ to_all <$> emitted w' = [true].
Proof.
  intros data w'.
  destruct (handle_send_message_relays demo_cfg data (lit "111") (lit "hi") None quiet_world)
    as (Hwire & _ & Hemit & _); try reflexivity; try discriminate.
  split; [exact Hwire|]. subst w'. rewrite Hemit. reflexivity.
Defined.

(** X12: with the right secret but no target or no text (the field is
    absent or empty), the originating session alone gets
    'Missing required fields'; nothing is sent, stored or broadcast. *)
Theorem handle_send_message_missing_fields (cfg : Config) (data : SendData) (w : World) :
  d_secure_token data = Some (SECURE_TOKEN cfg) →
  d_sender_id data = None ∨ d_sender_id data = Some []
  ∨ d_text data = None ∨ d_text data = Some [] →
  let w' := snd (handle_send_message cfg data w) in
  emitted w' = emitted w ++ [{| event := error (lit "Missing required fields");
                                to_all := false |}]
  ∧ wire w' = wire w
  ∧ messages w' = messages w
  ∧ auto_replies w' = auto_replies w.
Proof.
  intros Htoken Hmissing. unfold handle_send_message.
  rewrite Htoken. rewrite bool_decide_false by (by intros []).
  destruct (d_sender_id data) as [[|c chat]|], (d_text data) as [[|b body]|];
    try (by run_prims).
  destruct Hmissing as [?|[?|[?|?]]]; done.
Qed.

Lemma handle_send_message_missing_fields_witness :
  let data := {| d_secure_token := Some (lit "s3cret"); d_sender_id := Some (lit "111");
                 d_text := Some [] |} in
  let w' := snd (handle_send_message demo_cfg data quiet_world) in
  emitted w' = [{| event := error (lit "Missing required fields"); to_all := false |}]
  ∧ wire w' = [].
Proof.
  intros data w'.
  destruct (handle_send_message_missing_fields demo_cfg data quiet_world eq_refl)
    as (Hemit & Hwire & _); [by right; right; right|].
  split; [exact Hemit | exact Hwire].
Defined.

(** ** The auto-reply, step by step *)

(** X13: the cooldown starts only after the welcome message went out and
    its record was committed: when the send fails, or the send succeeds and
    the commit of the record fails, [handle_auto_reply] leaves both tables
    as they were and emits nothing, so the next message of the user is
    greeted again. *)
Theorem handle_auto_reply_failure_records_nothing (cfg : Config) (chat : Z) (w : World) :
  net w 0%nat = HttpFail ∨ db_ok w 0%nat = false →
  let w' := snd (handle_auto_reply cfg chat w) in
  auto_replies w' = auto_replies w
  ∧ messages w' = messages w
  ∧ emitted w' = emitted w.
Proof.
  intros Hfail. unfold handle_auto_reply.
  destruct (bool_decide _); [|done]. unfold bind.
  pose proof (should_send_auto_reply_eq cfg (str_of_int chat) w) as Hfire.
  pose proof (should_send_auto_reply_frame cfg (str_of_int chat) w) as Hframe.
  destruct (should_send_auto_reply cfg (str_of_int chat) w) as [fire w0].
  simpl in Hfire, Hframe. destruct Hframe as (Hm & Ha & _ & He & _ & Hn & Hs).
  destruct fire as [[]|e]; [|simpl; repeat split; congruence..].
  unfold update_auto_reply_record. run_prims. rewrite Hn.
  destruct (net w 0%nat); simpl; [repeat split; congruence|].
  rewrite Hs. destruct (pending_rollback w); [done|]. simpl.
  destruct Hfail as [? | ->]; [done|]. simpl. repeat split; congruence.
Qed.

Lemma handle_auto_reply_failure_records_nothing_witness :
  auto_replies (snd (handle_auto_reply demo_cfg 111 offline_world)) = ∅.
Proof.
  destruct (handle_auto_reply_failure_records_nothing demo_cfg 111 offline_world)
    as [Hrec _]; [by left | exact Hrec].
Defined.

(** X14: when the gate lets a user who is not the operator through and the
    send and both commits succeed, [handle_auto_reply] sends the welcome
    message to the chat, sets the user's record to the instant read for
    it, and stores and broadcasts one row authored by "Bot" under the bot
    token. *)
Theorem handle_auto_reply_fires (cfg : Config) (chat : Z) (r : option str) (w : World) :
  str_of_int chat ≠ FORWARD_TO_ID cfg →
  fst (should_send_auto_reply cfg (str_of_int chat) w) = Ok true →
  net w 0%nat = HttpOk r →
  db_ok w 0%nat = true →
  db_ok w 1%nat = true →
  let w0 := snd (should_send_auto_reply cfg (str_of_int chat) w) in
  let w' := snd (handle_auto_reply cfg chat w) in
  wire w' = wire w ++ [(SendMessage (IdInt chat) (WELCOME_MESSAGE cfg), HttpOk r)]
  ∧ auto_replies w' = <[str_of_int chat := Some (clock w0 0%nat)]> (auto_replies w)
  ∧ messages w' = messages w ++ [bot_row cfg (clock w0 1%nat)]
  ∧ emitted w' = emitted w ++
      [{| event := new_message (IdStr (BOT_TOKEN cfg)) (lit "Bot") (WELCOME_MESSAGE cfg)
                               (format_datetime (clock w0 1%nat));
          to_all := true |}].
Proof.
  intros Huser Hfire Hnet Hdb0 Hdb1 w0 w'. subst w0 w'. unfold handle_auto_reply.
  rewrite bool_decide_true by done. unfold bind.
  pose proof (should_send_auto_reply_frame cfg (str_of_int chat) w) as Hframe.
  destruct (should_send_auto_reply cfg (str_of_int chat) w) as [fire w0].
  simpl in Hfire, Hframe |- *. destruct Hframe as (Hm & Ha & Hw & He & _ & Hn & Hs).
  subst fire.
  unfold update_auto_reply_record. run_prims. rewrite Hn, Hnet. simpl.
  rewrite Hs, (usable_session w 0%nat Hdb0). simpl.
  rewrite Hdb0. simpl. rewrite Hdb1. simpl. by rewrite Hm, Ha, Hw, He.
Qed.

Lemma handle_auto_reply_fires_witness :
  let w' := snd (handle_auto_reply demo_cfg 111 quiet_world) in
  wire w' = [(SendMessage (IdInt 111) (lit "Welcome!"), HttpOk None)]
  ∧ auto_replies w' = {[ lit "111" := Some 0 ]}.
Proof.
  intros w'.
  destruct (handle_auto_reply_fires demo_cfg 111 None quiet_world)
    as (Hwire & Hrec & _); try reflexivity; [discriminate|].
  split; [exact Hwire | exact Hrec].
Defined.

(** X15: one welcome per cooldown.  Once [handle_auto_reply] has greeted a
    user without record (send and record commit succeeded; the instant
    recorded is the first clock reading), a later call for the same user
    whose clock reads no more than that instant plus the cooldown sends
    nothing, stores nothing and emits nothing. *)
Theorem handle_auto_reply_once_per_cooldown
    (cfg : Config) (chat : Z) (r : option str) (w w2 : World) :
  str_of_int chat ≠ FORWARD_TO_ID cfg →
  auto_replies w !! str_of_int chat = None →
  net w 0%nat = HttpOk r →
  db_ok w 0%nat = true →
  auto_replies w2 !! str_of_int chat
  = auto_replies (snd (handle_auto_reply cfg chat w)) !! str_of_int chat →
  clock w2 0%nat <= clock w 0%nat + timedelta_hours (COOLDOWN_HOURS cfg) →
  let w2' := snd (handle_auto_reply cfg chat w2) in
  wire w2' = wire w2 ∧ messages w2' = messages w2 ∧ emitted w2' = emitted w2
  ∧ auto_replies w2' = auto_replies w2 ∧ log w2' = log w2.
Proof.
  intros Huser Hnew Hnet Hdb Hsame Hclock.
  assert (auto_replies (snd (handle_auto_reply cfg chat w)) !! str_of_int chat
          = Some (Some (clock w 0%nat))) as Hrec.
  { unfold handle_auto_reply, should_send_auto_reply, update_auto_reply_record.
    rewrite bool_decide_true by done. run_prims.
    rewrite (usable_session w 0%nat Hdb), Hnew. simpl.
    rewrite Hnet. simpl. rewrite (usable_session w 0%nat Hdb). simpl. rewrite Hdb. simpl.
    destruct (db_ok w 1%nat); simpl; apply lookup_insert_eq. }
  rewrite Hrec in Hsame. clear Hrec.
  unfold handle_auto_reply, should_send_auto_reply.
  rewrite bool_decide_true by done. run_prims.
  destruct (pending_rollback w2); [done|]. rewrite Hsame. simpl.
  destruct (cooldown_time cfg (clock w 0%nat)) as [instant|] eqn:Hsum; [|done].
  apply cooldown_time_Some in Hsum. subst instant. simpl.
  rewrite (proj2 (Z.ltb_ge _ _)) by lia. done.
Qed.

Lemma handle_auto_reply_once_per_cooldown_witness :
  let w1 := snd (handle_auto_reply demo_cfg 111 quiet_world) in
  wire (snd (handle_auto_reply demo_cfg 111 (at_time 86400000000 w1))) = wire w1.
Proof.
  intros w1.
  refine (proj1 (handle_auto_reply_once_per_cooldown demo_cfg 111 None quiet_world
                   (at_time 86400000000 w1) _ _ _ _ _ _));
    first [reflexivity | discriminate].
Defined.

(** X16: [handle_auto_reply] for one chat never changes the record of
    another user. *)
Theorem handle_auto_reply_other_users (cfg : Config) (chat : Z) (other : str) (w : World) :
  other ≠ str_of_int chat →
  auto_replies (snd (handle_auto_reply cfg chat w)) !! other = auto_replies w !! other.
Proof.
  intros Hother. unfold handle_auto_reply.
  destruct (bool_decide _); [|done]. unfold bind.
  pose proof (should_send_auto_reply_frame cfg (str_of_int chat) w) as Hframe.
  destruct (should_send_auto_reply cfg (str_of_int chat) w) as [[[|]|e] w0];
    simpl in Hframe |- *; destruct Hframe as (_ & Ha & _); try by rewrite Ha.
  rewrite <- Ha. clear Ha. unfold update_auto_reply_record. run_prims.
  destruct (net w0 0%nat); simpl; [done|].
  destruct (pending_rollback w0); simpl; [done|].
  destruct (db_ok w0 0%nat); simpl; [|done].
  destruct (db_ok w0 1%nat); simpl; by rewrite lookup_insert_ne.
Qed.

Lemma handle_auto_reply_other_users_witness :
  auto_replies (snd (handle_auto_reply demo_cfg 111 quiet_world)) !! lit "222" = None.
Proof.
  rewrite (handle_auto_reply_other_users demo_cfg 111 (lit "222") quiet_world);
    [reflexivity | discriminate].
Defined.

(** ** More on the correlator *)

Lemma target_needs_token s target :
  target_user_id s = Some target → contains ID_token s = true.
Proof.
  unfold target_user_id. intros Hsome.
  destruct (contains ID_token s) eqn:Hin; [done|]. apply contains_false in Hin.
  by rewrite (split_second_None _ _ ID_token_ne Hin) in Hsome.
Qed.

(** X17: the guard ['ID:' in original_text] is exactly the condition under
    which the extraction has a result: after the guard the [IndexError] of
    [split('ID:')[1]] cannot occur, and without the token there is no
    target. *)
Theorem target_user_id_defined (s : str) :
  is_Some (target_user_id s) ↔ contains ID_token s = true.
Proof.
  unfold target_user_id. split.
  - intros [target Hsome]. by apply (target_needs_token s target).
  - intros [i Hfind]%contains_true.
    rewrite (split_second _ _ _ ID_token_ne Hfind). cbn [mbind option_bind].
    rewrite split_first by done. by eexists.
Qed.

Lemma find_single_first c s i : find [c] s = Some i → c ∉ take i s.
Proof.
  revert i. induction s as [|b s IH]; intros i; [done|].
  rewrite find_cons. cbn [startswith].
  destruct (N.eqb_spec c b) as [->|Hne]; simpl.
  - intros [= <-]. apply not_elem_of_nil.
  - destruct (find [c] s) as [j|]; [|done]. intros [= <-]. simpl.
    apply not_elem_of_cons. split; [done | by apply IH].
Qed.

Lemma first_segment_single_free c s : c ∉ first_segment [c] s.
Proof.
  unfold first_segment. destruct (find [c] s) as [i|] eqn:E.
  - by apply find_single_first.
  - by apply find_single_None.
Qed.

Lemma lstrip_suffix s : lstrip s `suffix_of` s.
Proof.
  induction s as [|c s IH]; simpl; [done|].
  destruct (isspace c); [by apply suffix_cons_r | done].
Qed.

Lemma lstrip_head s :
  lstrip s = [] ∨ ∃ c t, lstrip s = c :: t ∧ isspace c = false.
Proof.
  induction s as [|c s IH]; simpl; [by left|].
  destruct (isspace c) eqn:E; [done|]. right. by exists c, s.
Qed.

Lemma lstrip_fixed c t : isspace c = false → lstrip (c :: t) = c :: t.
Proof. intros H. simpl. by rewrite H. Qed.

Lemma strip_subseteq s : strip s ⊆ s.
Proof.
  unfold strip, rstrip. intros x Hx. rewrite elem_of_reverse in Hx.
  pose proof (elem_of_suffix _ _ _ Hx (lstrip_suffix (reverse (lstrip s)))) as Hx'.
  rewrite elem_of_reverse in Hx'. exact (elem_of_suffix _ _ _ Hx' (lstrip_suffix s)).
Qed.

(** Trimming twice is trimming once. *)
Lemma strip_idemp s : strip (strip s) = strip s.
Proof.
  unfold strip at 2 3. unfold rstrip.
  destruct (lstrip_head (reverse (lstrip s))) as [Hnil|(c & t & Hb & Hc)].
  { rewrite Hnil. reflexivity. }
  rewrite Hb.
  destruct (lstrip_suffix (reverse (lstrip s))) as [p Hp]. rewrite Hb in Hp.
  apply (f_equal reverse) in Hp. rewrite reverse_involutive, reverse_app in Hp.
  destruct (lstrip_head s) as [Ha|(a & u & Ha & Hspace)].
  { rewrite Ha in Hp. destruct (reverse (c :: t)) eqn:E; [|done].
    apply (f_equal length) in E. rewrite length_reverse in E. done. }
  rewrite Ha in Hp.
  assert (∃ v, reverse (c :: t) = a :: v) as [v Hv].
  { destruct (reverse (c :: t)) as [|x v] eqn:E.
    - apply (f_equal length) in E. rewrite length_reverse in E. done.
    - injection Hp as -> _. by exists v. }
  unfold strip, rstrip. rewrite Hv, lstrip_fixed by done.
  rewrite <- Hv, reverse_involutive, lstrip_fixed by done. done.
Qed.

(** X18: whatever the quoted text, an extracted target contains no ")" and
    has no white space at either end. *)
Theorem target_user_id_shape (s target : str) :
  target_user_id s = Some target →
  (41%N ∉ target) ∧ strip target = target.
Proof.
  unfold target_user_id. intros H.
  destruct (split ID_token s !! 1%nat) as [after|]; [|done]. cbn [mbind option_bind] in H.
  rewrite split_first in H by done. cbn [mbind option_bind] in H.
  injection H as <-. split; [|apply strip_idemp].
  intros Hin%strip_subseteq. by apply (first_segment_single_free 41%N after).
Qed.

Lemma target_user_id_shape_witness :
  (41%N ∉ lit "42") ∧ strip (lit "42") = lit "42".
Proof. apply (target_user_id_shape (lit "see (ID:  42 ) and more")). reflexivity. Defined.

(** ** Rendering chat identifiers *)

Lemma lit_inj s1 s2 : lit s1 = lit s2 → s1 = s2.
Proof.
  unfold lit. intros H.
  rewrite <- (string_of_list_ascii_of_string s1), <- (string_of_list_ascii_of_string s2).
  f_equal. revert H. generalize (list_ascii_of_string s1) (list_ascii_of_string s2).
  induction l as [|a l IH]; intros [|b l']; simpl; try done.
  intros [= Hab Hl]. f_equal; [|by apply IH].
  by rewrite <- (ascii_N_embedding a), <- (ascii_N_embedding b), Hab.
Qed.

(** X19: [str(chat_id)] tells integers apart, so two chats never share a
    [sender_id] or an auto-reply record. *)
Theorem str_of_int_inj (n m : Z) : n ≠ m → str_of_int n ≠ str_of_int m.
Proof.
  unfold str_of_int. intros Hne H%lit_inj. apply Hne.
  assert (Z.to_int n = Z.to_int m) as Hint.
  { apply (f_equal NilEmpty.int_of_string) in H.
    rewrite !NilEmpty.isi in H. by injection H. }
  by rewrite <- (DecimalZ.of_to n), <- (DecimalZ.of_to m), Hint.
Qed.

Lemma str_of_int_inj_witness : str_of_int 111 ≠ str_of_int (-111).
Proof. apply str_of_int_inj. discriminate. Defined.

(** ** What every event preserves *)

Section Preserved.

Variable R : World → World → Prop.
Hypothesis R_refl : ∀ w, R w w.
Hypothesis R_trans : ∀ w1 w2 w3, R w1 w2 → R w2 w3 → R w1 w3.

Lemma preserved_ret {A} (a : A) : preserved R (ret a).
Proof using R_refl. intros w. apply R_refl. Qed.

Lemma preserved_raise {A} e : preserved R (@raise A e).
Proof using R_refl. intros w. apply R_refl. Qed.

Lemma preserved_bind {A B} (m : M A) (k : A → M B) :
  preserved R m → (∀ a, preserved R (k a)) → preserved R (bind m k).
Proof using R_trans.
  intros Hm Hk w. unfold bind. specialize (Hm w).
  destruct (m w) as [[a|e] w1]; simpl in *; [|done].
  eapply R_trans; [done | apply Hk].
Qed.

Lemma preserved_try {A} (m : M A) (h : Exn → M A) :
  preserved R m → (∀ e, preserved R (h e)) → preserved R (try_except m h).
Proof using R_trans.
  intros Hm Hh w. unfold try_except. specialize (Hm w).
  destruct (m w) as [[a|e] w1]; simpl in *; [done|].
  eapply R_trans; [done | apply Hh].
Qed.

End Preserved.

Lemma grows_refl w : grows w w.
Proof. by repeat split. Qed.

Lemma grows_trans w1 w2 w3 : grows w1 w2 → grows w2 w3 → grows w1 w3.
Proof. intros (?&?&?&?) (?&?&?&?). repeat split; by etrans. Qed.

Lemma gate_untouched_refl w : gate_untouched w w.
Proof. done. Qed.

Lemma gate_untouched_trans w1 w2 w3 :
  gate_untouched w1 w2 → gate_untouched w2 w3 → gate_untouched w1 w3.
Proof. unfold gate_untouched. congruence. Qed.

Lemma grows_logging lvl msg : preserved grows (logging lvl msg).
Proof. intros w. repeat split; simpl; try done. by apply prefix_app_r. Qed.

Lemma grows_emit e b : preserved grows (emit e b).
Proof. intros w. repeat split; simpl; try done. by apply prefix_app_r. Qed.

Lemma grows_utcnow : preserved grows utcnow.
Proof. intros w. by repeat split. Qed.

Lemma grows_requests_post r : preserved grows (requests_post r).
Proof.
  intros w. unfold requests_post.
  destruct (net w 0%nat); repeat split; simpl; try done; by apply prefix_app_r.
Qed.

Lemma grows_add_message row : preserved grows (add_message row).
Proof.
  intros w. unfold add_message, commit.
  destruct (db_ok w 0%nat); repeat split; simpl; try done. by apply prefix_app_r.
Qed.

Lemma grows_update_auto_reply_record user_id :
  preserved grows (update_auto_reply_record user_id).
Proof.
  intros w. unfold update_auto_reply_record. run_prims.
  destruct (pending_rollback w); [by repeat split|]. simpl.
  by destruct (db_ok w 0%nat); repeat split.
Qed.

Lemma grows_should_send_auto_reply cfg user_id :
  preserved grows (should_send_auto_reply cfg user_id).
Proof.
  intros w. destruct (should_send_auto_reply_frame cfg user_id w) as (Hm & _ & Hw & He & Hl & _).
  repeat split; by rewrite ?Hm, ?Hw, ?He, ?Hl.
Qed.

Ltac growing :=
  repeat first
    [ apply (preserved_ret grows grows_refl)
    | apply (preserved_raise grows grows_refl)
    | apply grows_logging | apply grows_emit | apply grows_utcnow
    | apply grows_requests_post | apply grows_add_message
    | apply grows_update_auto_reply_record | apply grows_should_send_auto_reply
    | apply (preserved_bind grows grows_trans); [|intros ?]
    | apply (preserved_try grows grows_trans); [|intros ?] ].

Lemma grows_handle_auto_reply cfg chat : preserved grows (handle_auto_reply cfg chat).
Proof.
  unfold handle_auto_reply. destruct (bool_decide _); growing.
  destruct a; growing.
Qed.

Lemma grows_handle_text_message cfg chat name body :
  preserved grows (handle_text_message cfg chat name body).
Proof. unfold handle_text_message. growing. Qed.

Lemma grows_file_url_of cfg info : preserved grows (file_url_of cfg info).
Proof. unfold file_url_of. destruct info; growing. Qed.

Lemma grows_last_photo photos : preserved grows (last_photo photos).
Proof. unfold last_photo. destruct (last photos); growing. Qed.

Lemma grows_handle_photo_message cfg chat name file caption :
  preserved grows (handle_photo_message cfg chat name file caption).
Proof. unfold handle_photo_message. growing. apply grows_file_url_of. Qed.

Lemma grows_handle_customer_service_reply cfg message :
  preserved grows (handle_customer_service_reply cfg message).
Proof.
  unfold handle_customer_service_reply.
  apply (preserved_bind grows grows_trans); [apply grows_logging|]. intros _.
  destruct (m_reply_to_message message) as [quoted|]; [|growing].
  destruct (negb _); [growing|]. destruct (negb _); growing.
  - destruct (target_user_id _); growing.
  - destruct (m_photo message), (m_text message); growing;
      first [apply grows_last_photo | apply grows_file_url_of].
Qed.

(** X20: the store is append-only and the traces are never rewritten:
    whatever update the webhook receives and whatever fails on the way, the
    rows, the API calls, the socket events and the log records present
    before are still there, in the same order, at the front of what is
    there after. *)
Theorem telegram_webhook_append_only (cfg : Config) (data : Update) (w : World) :
  grows w (snd (telegram_webhook cfg data w)).
Proof.
  revert w. change (preserved grows (telegram_webhook cfg data)).
  unfold telegram_webhook.
  apply (preserved_bind grows grows_trans); [apply grows_logging|]. intros _.
  destruct (u_message data) as [message|]; [|growing]. cbn zeta.
  destruct (_ && _).
  { apply (preserved_bind grows grows_trans);
      [apply grows_handle_customer_service_reply | intros; growing]. }
  destruct (bool_decide _); [|growing].
  destruct (m_text message) as [body|]; [|destruct (m_photo message) as [photos|]].
  - apply (preserved_bind grows grows_trans); [apply grows_handle_text_message|]. intros _.
    apply (preserved_bind grows grows_trans); [apply grows_handle_auto_reply|].
    intros; growing.
  - apply (preserved_bind grows grows_trans); [apply grows_last_photo|]. intros photo.
    apply (preserved_bind grows grows_trans); [apply grows_handle_photo_message|]. intros _.
    apply (preserved_bind grows grows_trans); [apply grows_handle_auto_reply|].
    intros; growing.
  - growing.
Qed.

(** X21: the same for the dashboard socket: [handle_send_message] only
    appends. *)
Theorem handle_send_message_append_only (cfg : Config) (data : SendData) (w : World) :
  grows w (snd (handle_send_message cfg data w)).
Proof.
  revert w. change (preserved grows (handle_send_message cfg data)).
  unfold handle_send_message.
  apply (preserved_bind grows grows_trans); [apply grows_logging|]. intros _.
  destruct (bool_decide _); [growing|].
  destruct (d_sender_id data) as [[|? ?]|], (d_text data) as [[|? ?]|]; growing.
Qed.

Lemma untouched_logging lvl msg : preserved gate_untouched (logging lvl msg).
Proof. by intros w. Qed.

Lemma untouched_emit e b : preserved gate_untouched (emit e b).
Proof. by intros w. Qed.

Lemma untouched_utcnow : preserved gate_untouched utcnow.
Proof. by intros w. Qed.

Lemma untouched_requests_post r : preserved gate_untouched (requests_post r).
Proof. intros w. unfold requests_post. by destruct (net w 0%nat). Qed.

Lemma untouched_add_message row : preserved gate_untouched (add_message row).
Proof. intros w. unfold add_message, commit. by destruct (db_ok w 0%nat). Qed.

Ltac untouched :=
  repeat first
    [ apply (preserved_ret gate_untouched gate_untouched_refl)
    | apply (preserved_raise gate_untouched gate_untouched_refl)
    | apply untouched_logging | apply untouched_emit | apply untouched_utcnow
    | apply untouched_requests_post | apply untouched_add_message
    | apply (preserved_bind gate_untouched gate_untouched_trans); [|intros ?]
    | apply (preserved_try gate_untouched gate_untouched_trans); [|intros ?] ].

(** X22: the auto-reply table is written by [handle_auto_reply] alone: the
    three relays and the dashboard handler leave it as it was, whatever
    they are given and whatever fails. *)
Theorem relays_leave_gate_untouched (cfg : Config) (w : World) :
  (∀ chat name body,
     auto_replies (snd (handle_text_message cfg chat name body w)) = auto_replies w)
  ∧ (∀ chat name file caption,
       auto_replies (snd (handle_photo_message cfg chat name file caption w))
       = auto_replies w)
  ∧ (∀ message,
       auto_replies (snd (handle_customer_service_reply cfg message w)) = auto_replies w)
  ∧ (∀ data, auto_replies (snd (handle_send_message cfg data w)) = auto_replies w).
Proof.
  split; [|split; [|split]].
  - intros chat name body. revert w.
    change (preserved gate_untouched (handle_text_message cfg chat name body)).
    unfold handle_text_message. untouched.
  - intros chat name file caption. revert w.
    change (preserved gate_untouched (handle_photo_message cfg chat name file caption)).
    unfold handle_photo_message. untouched. unfold file_url_of. destruct a; untouched.
  - intros message. revert w.
    change (preserved gate_untouched (handle_customer_service_reply cfg message)).
    unfold handle_customer_service_reply.
    apply (preserved_bind gate_untouched gate_untouched_trans);
      [apply untouched_logging|]. intros _.
    destruct (m_reply_to_message message) as [quoted|]; [|untouched].
    destruct (negb _); [untouched|]. destruct (negb _); untouched.
    + destruct (target_user_id _); untouched.
    + destruct (m_photo message), (m_text message); untouched;
        first [ unfold last_photo; destruct (last _); untouched
              | unfold file_url_of; destruct a2; untouched ].
  - intros data. revert w.
    change (preserved gate_untouched (handle_send_message cfg data)).
    unfold handle_send_message.
    apply (preserved_bind gate_untouched gate_untouched_trans);
      [apply untouched_logging|]. intros _.
    destruct (bool_decide _); [untouched|].
    destruct (d_sender_id data) as [[|? ?]|], (d_text data) as [[|? ?]|]; untouched.
Qed.

(** ** Relaying a text *)

(** X23: [handle_text_message] stores before it sends and does not undo:
    when the commit fails the operator is not contacted and nothing is
    stored or emitted; when the commit succeeds and the send fails the row
    stays stored and nothing is emitted; when both succeed the row is also
    broadcast.  The first two cases end in the exception. *)
Theorem handle_text_message_stores_first
    (cfg : Config) (chat : Z) (name body : str) (w : World) :
  let row := {| sender_id := str_of_int chat; sender_name := name; text := body;
                timestamp := clock w 0%nat; media_type := None; media_url := None |} in
  let call := SendMessage (IdStr (FORWARD_TO_ID cfg))
                          (forward_text name (str_of_int chat) body) in
  let out := handle_text_message cfg chat name body w in
  (db_ok w 0%nat = false →
   fst out = Raise SQLAlchemyError
   ∧ messages (snd out) = messages w ∧ wire (snd out) = wire w
   ∧ emitted (snd out) = emitted w)
  ∧ (db_ok w 0%nat = true → net w 0%nat = HttpFail →
     fst out = Raise HTTPError
     ∧ messages (snd out) = messages w ++ [row]
     ∧ wire (snd out) = wire w ++ [(call, HttpFail)]
     ∧ emitted (snd out) = emitted w)
  ∧ (∀ r, db_ok w 0%nat = true → net w 0%nat = HttpOk r →
     fst out = Ok tt
     ∧ messages (snd out) = messages w ++ [row]
     ∧ wire (snd out) = wire w ++ [(call, HttpOk r)]
     ∧ emitted (snd out) = emitted w ++
         [{| event := new_message (IdInt chat) name body (format_datetime (clock w 0%nat));
             to_all := true |}]).
Proof.
  intros row call out. subst row call out. unfold handle_text_message.
  split; [|split].
  - intros Hdb. run_prims. by rewrite Hdb.
  - intros Hdb Hnet. run_prims. rewrite Hdb. simpl. by rewrite Hnet.
  - intros r Hdb Hnet. run_prims. rewrite Hdb. simpl. by rewrite Hnet.
Qed.

Lemma handle_text_message_stores_first_witness :
  let out := handle_text_message demo_cfg 111 (lit "Alice") (lit "hi") offline_world in
  fst out = Raise HTTPError ∧ length (messages (snd out)) = 1%nat.
Proof.
  intros out.
  destruct (handle_text_message_stores_first demo_cfg 111 (lit "Alice") (lit "hi")
              offline_world) as (_ & Hsend & _).
  destruct (Hsend eq_refl eq_refl) as (Hraise & Hrows & _).
  split; [exact Hraise|]. subst out. rewrite Hrows. reflexivity.
Defined.

(** X24: the relay closes the loop.  The text [handle_text_message] sends
    to the operator for an integer chat and a sender name without "ID:" is
    such that an operator reply quoting it, with text and no photo, is sent
    by the webhook to that very chat (as the string [str(chat_id)]). *)
Theorem relay_round_trip
    (cfg : Config) (chat : Z) (name body reply : str)
    (data : Update) (message : TgMessage) (w0 w : World) :
  contains ID_token name = false →
  db_ok w0 0%nat = true →
  u_message data = Some message →
  str_of_int (chat_id (m_chat message)) = FORWARD_TO_ID cfg →
  m_photo message = None →
  m_text message = Some reply →
  ∀ forwarded,
    wire (snd (handle_text_message cfg chat name body w0))
    = wire w0 ++ [(SendMessage (IdStr (FORWARD_TO_ID cfg)) forwarded, net w0 0%nat)] →
    m_reply_to_message message = Some (quoted_text forwarded) →
    wire (snd (telegram_webhook cfg data w))
    = wire w ++ [(SendMessage (IdStr (str_of_int chat)) reply, net w 0%nat)].
Proof.
  intros Hname Hdb Hmsg Hop Hphoto Htext forwarded Hsent Hq.
  assert (forwarded = forward_text name (str_of_int chat) body) as ->.
  { revert Hsent. unfold handle_text_message. run_prims. rewrite Hdb. simpl.
    destruct (net w0 0%nat); simpl; intros H%app_inv_head; by injection H. }
  destruct (round_trip_int name chat body Hname) as [Htarget _].
  assert (contains ID_token (original_text (quoted_text
            (forward_text name (str_of_int chat) body))) = true) as Hin.
  { by apply (target_needs_token _ _ Htarget). }
  unfold telegram_webhook, handle_customer_service_reply.
  rewrite Hmsg. cbn zeta. rewrite Hop, Hq, (marker_truthy _ Hin), Hin, Htarget, Hphoto, Htext.
  rewrite bool_decide_true by done. rewrite bool_decide_true by by eexists.
  run_prims. destruct (net w 0%nat); simpl; [done|]. by destruct (db_ok w 0%nat).
Qed.

Lemma relay_round_trip_witness :
  let forwarded := forward_text (lit "Alice") (lit "111") (lit "hi") in
  let data := {| u_message := Some (operator_reply forwarded (lit "hello")) |} in
  wire (snd (telegram_webhook demo_cfg data quiet_world))
  = [(SendMessage (IdStr (lit "111")) (lit "hello"), HttpOk None)].
Proof.
  intros forwarded data.
  exact (relay_round_trip demo_cfg 111 (lit "Alice") (lit "hi") (lit "hello") data _
           quiet_world quiet_world eq_refl eq_refl eq_refl eq_refl eq_refl eq_refl
           forwarded eq_refl eq_refl).
Defined.

(** ** The page for any store *)

Lemma reverse_not_newer l :
  StronglySorted newer_first l → StronglySorted not_newer (reverse l).
Proof.
  induction 1 as [|z l Hl IH Hz]; [constructor|].
  rewrite reverse_cons. apply StronglySorted_app_2; [|done|by repeat constructor].
  intros x1 x2 Hx1 Hx2. rewrite elem_of_reverse in Hx1.
  apply list_elem_of_singleton in Hx2. subst x2.
  rewrite Forall_forall in Hz. exact (Hz _ Hx1).
Qed.

(** X25: with the right token, and without any assumption on the clock,
    the page shows min(5000, N) rows of the table, in non-decreasing
    timestamp order, and no row left out carries a later timestamp than a
    row shown: the window is made of the latest rows by timestamp.  With
    any other token the page is refused. *)
Theorem home_shows_latest
    (cfg : Config) (token : option str) (table result : list Message) :
  order_by_timestamp_desc table result →
  (token ≠ Some (SECURE_TOKEN cfg) → home cfg token result = Forbidden)
  ∧ (token = Some (SECURE_TOKEN cfg) →
     ∃ shown left_out,
       home cfg token result = Display shown
       ∧ length shown = min 5000 (length table)
       ∧ StronglySorted not_newer shown
       ∧ shown ++ left_out ≡ₚ table
       ∧ ∀ x y, x ∈ shown → y ∈ left_out → timestamp y <= timestamp x).
Proof.
  intros [Hperm Hsorted]. unfold home. split.
  - intros Htoken. by rewrite bool_decide_true.
  - intros ->. rewrite bool_decide_false by (by intros []).
    exists (window 5000 result), (drop 5000 result). unfold window.
    rewrite <- (take_drop 5000 result) in Hsorted.
    apply StronglySorted_app in Hsorted as (Hcross & Htake & _).
    split; [done|]. split; [|split; [|split]].
    + by rewrite length_reverse, length_take, Hperm.
    + by apply reverse_not_newer.
    + by rewrite reverse_Permutation, take_drop.
    + intros x y Hx Hy. rewrite elem_of_reverse in Hx. exact (Hcross x y Hx Hy).
Qed.

Lemma home_shows_latest_witness :
  let table := [alice_row 5; alice_row 3; alice_row 4] in
  home demo_cfg (Some (lit "guess")) (sort_desc table) = Forbidden
  ∧ ∃ shown left_out,
      home demo_cfg (Some (lit "s3cret")) (sort_desc table) = Display shown
      ∧ length shown = 3%nat
      ∧ StronglySorted not_newer shown
      ∧ shown ++ left_out ≡ₚ table
      ∧ ∀ x y, x ∈ shown → y ∈ left_out → timestamp y <= timestamp x.
Proof.
  intros table. split.
  - apply (home_shows_latest demo_cfg (Some (lit "guess")) table (sort_desc table));
      [apply sort_desc_ordered | discriminate].
  - apply (home_shows_latest demo_cfg (Some (lit "s3cret")) table (sort_desc table));
      [apply sort_desc_ordered | reflexivity].
Defined.

(** ** Operator replies with a photo *)

(** X26: an operator reply with a photo is relayed with the largest size
    (the last of the list) once its metadata have a [file_path]; the row
    (operator id, "You", "[图片] <url> <caption>") is stored and broadcast
    exactly when the photo and the commit go through, and a failed send
    stores and emits nothing.  An empty photo list is caught: no call is
    made. *)
Theorem handle_customer_service_reply_photo
    (cfg : Config) (message : TgMessage) (quoted : Quoted) (target : str)
    (photos : list PhotoSize) (w : World) :
  m_reply_to_message message = Some quoted →
  contains ID_token (original_text quoted) = true →
  target_user_id (original_text quoted) = Some target →
  m_photo message = Some photos →
  let w' := snd (handle_customer_service_reply cfg message w) in
  let caption := default [] (m_caption message) in
  auto_replies w' = auto_replies w
  ∧ (photos = [] →
     wire w' = wire w ∧ messages w' = messages w ∧ emitted w' = emitted w)
  ∧ (∀ smaller photo path,
       photos = smaller ++ [photo] → net w 0%nat = HttpOk (Some path) →
       let url := lit "https://api.telegram.org/file/bot" ++ BOT_TOKEN cfg
                  ++ lit "/" ++ path in
       let row := {| sender_id := FORWARD_TO_ID cfg; sender_name := lit "You";
                     text := lit_picture ++ url ++ lit " " ++ caption;
                     timestamp := clock w 0%nat;
                     media_type := Some (lit "photo"); media_url := Some url |} in
       wire w' = wire w ++ [(GetFile (file_id photo), HttpOk (Some path));
                            (SendPhoto (IdStr target) (file_id photo) caption, net w 1%nat)]
       ∧ (net w 1%nat = HttpFail → messages w' = messages w ∧ emitted w' = emitted w)
       ∧ (net w 1%nat ≠ HttpFail → db_ok w 0%nat = false →
          messages w' = messages w ∧ emitted w' = emitted w)
       ∧ (net w 1%nat ≠ HttpFail → db_ok w 0%nat = true →
          messages w' = messages w ++ [row]
          ∧ emitted w' = emitted w ++
              [{| event := new_message (IdStr (FORWARD_TO_ID cfg)) (lit "You")
                                       (lit_picture ++ url ++ lit " " ++ caption)
                                       (format_datetime (clock w 0%nat));
                  to_all := true |}])).
Proof.
  intros Hq Hin Htarget Hphoto w' caption. subst w' caption.
  unfold handle_customer_service_reply. rewrite Hq, (marker_truthy _ Hin), Hin, Htarget, Hphoto.
  split; [|split].
  - run_prims. destruct (last photos); simpl; [|done].
    destruct (net w 0%nat) as [|[path|]]; simpl; try done.
    destruct (net w 1%nat); simpl; [done|]. by destruct (db_ok w 0%nat).
  - intros ->. by run_prims.
  - intros smaller photo path -> Hfile. run_prims. rewrite last_snoc. simpl.
    rewrite Hfile. simpl.
    destruct (net w 1%nat); simpl.
    + split; [by rewrite <- app_assoc|]. split; [done|].
      split; intros H; by contradict H.
    + destruct (db_ok w 0%nat); simpl;
        (split; [by rewrite <- app_assoc|]); (split; [done|]); by split.
Qed.

Lemma handle_customer_service_reply_photo_witness :
  let message :=
    {| m_chat := {| chat_id := 999; first_name := Some (lit "Op");
                    chat_type := Some (lit "private") |};
       m_text := None;
       m_photo := Some [{| file_id := lit "small" |}; {| file_id := lit "large" |}];
       m_caption := None;
       m_reply_to_message := Some (quoted_text (lit "(ID: 111)")) |} in
  let w := mkWorld [] ∅ [] [] [] (fun _ => HttpOk (Some (lit "p.jpg")))
                   (Usable (fun _ => true)) (fun _ => 7) in
  let w' := snd (handle_customer_service_reply demo_cfg message w) in
  wire w'
  = [(GetFile (lit "large"), HttpOk (Some (lit "p.jpg")));
     (SendPhoto (IdStr (lit "111")) (lit "large") [], HttpOk (Some (lit "p.jpg")))]
  ∧ emitted w'
    = [{| event := new_message (IdStr (lit "999")) (lit "You")
                     (lit_picture ++ lit "https://api.telegram.org/file/bot42:token/p.jpg ")
                     (format_datetime 7);
          to_all := true |}].
Proof.
  intros message w w'.
  destruct (handle_customer_service_reply_photo demo_cfg message _ (lit "111") _ w
              eq_refl eq_refl eq_refl eq_refl) as (_ & _ & Hrelay).
  destruct (Hrelay [{| file_id := lit "small" |}] {| file_id := lit "large" |} (lit "p.jpg")
              eq_refl eq_refl) as (Hwire & _ & _ & Hok).
  split; [exact Hwire|].
  destruct Hok as [_ Hemit]; [discriminate | reflexivity | exact Hemit].
Defined.

(** ** What the webhook passes on *)

Lemma handle_photo_message_first_call cfg chat name file caption w :
  wire w ++ [(GetFile file, net w 0%nat)]
  `prefix_of` wire (snd (handle_photo_message cfg chat name file caption w)).
Proof.
  unfold handle_photo_message. run_prims.
  destruct (net w 0%nat) as [|[path|]]; simpl; try done.
  destruct (net w 1%nat); simpl; [by apply prefix_app_r|].
  destruct (db_ok w 0%nat); simpl; by apply prefix_app_r.
Qed.

(** X27: of a private photo message the webhook relays the last size of
    the list: the first call it makes asks for the metadata of that
    size. *)
Theorem telegram_webhook_relays_last_photo
    (cfg : Config) (data : Update) (message : TgMessage)
    (smaller : list PhotoSize) (photo : PhotoSize) (w : World) :
  u_message data = Some message →
  ¬ (str_of_int (chat_id (m_chat message)) = FORWARD_TO_ID cfg
     ∧ is_Some (m_reply_to_message message)) →
  chat_type (m_chat message) = Some (lit "private") →
  m_text message = None →
  m_photo message = Some (smaller ++ [photo]) →
  wire w ++ [(GetFile (file_id photo), net w 0%nat)]
  `prefix_of` wire (snd (telegram_webhook cfg data w)).
Proof.
  intros Hmsg Hreply Hprivate Htext Hphoto. unfold telegram_webhook.
  rewrite Hmsg. cbn zeta. rewrite webhook_dispatch_false by done.
  rewrite Hprivate, Htext, Hphoto. rewrite bool_decide_true by done.
  unfold last_photo. rewrite last_snoc. unfold bind, ret, logging. simpl.
  set (w1 := mkWorld _ _ _ _ _ _ _ _).
  pose proof (handle_photo_message_first_call cfg (chat_id (m_chat message))
                (default (lit "Unknown") (first_name (m_chat message)))
                (file_id photo) (default [] (m_caption message)) w1) as Hfirst.
  pose proof (handle_photo_message_never_raises_aux cfg (chat_id (m_chat message))
                (default (lit "Unknown") (first_name (m_chat message)))
                (file_id photo) (default [] (m_caption message)) w1) as Hok.
  destruct (handle_photo_message _ _ _ _ _ w1) as [r w2]. simpl in Hfirst, Hok. subst r.
  pose proof (grows_handle_auto_reply cfg (chat_id (m_chat message)) w2) as (_ & Hgrow & _).
  destruct (handle_auto_reply _ _ w2) as [[[]|e] w3]; simpl in *; by etrans.
Qed.

Lemma telegram_webhook_relays_last_photo_witness :
  let data := alice_sends_photo [{| file_id := lit "small" |}; {| file_id := lit "large" |}] in
  [(GetFile (lit "large"), HttpFail)]
  `prefix_of` wire (snd (telegram_webhook demo_cfg data offline_world)).
Proof.
  intros data.
  apply (telegram_webhook_relays_last_photo demo_cfg data _ [{| file_id := lit "small" |}]
           {| file_id := lit "large" |} offline_world eq_refl);
    [intros [Hop _]; discriminate Hop | reflexivity..].
Defined.

Lemma handle_text_message_prefix cfg chat name body w :
  db_ok w 0%nat = true →
  let w' := snd (handle_text_message cfg chat name body w) in
  messages w ++ [{| sender_id := str_of_int chat; sender_name := name; text := body;
                    timestamp := clock w 0%nat; media_type := None; media_url := None |}]
  `prefix_of` messages w'
  ∧ wire w ++ [(SendMessage (IdStr (FORWARD_TO_ID cfg))
                            (forward_text name (str_of_int chat) body), net w 0%nat)]
    `prefix_of` wire w'.
Proof.
  intros Hdb. unfold handle_text_message. run_prims. rewrite Hdb. simpl.
  by destruct (net w 0%nat).
Qed.

(** X28: a private text from a chat without [first_name] is relayed under
    the name "Unknown": once the commit succeeds, the row stored and the
    text sent to the operator both carry that name, whatever happens
    next. *)
Theorem telegram_webhook_unknown_sender
    (cfg : Config) (data : Update) (message : TgMessage) (body : str) (w : World) :
  u_message data = Some message →
  ¬ (str_of_int (chat_id (m_chat message)) = FORWARD_TO_ID cfg
     ∧ is_Some (m_reply_to_message message)) →
  chat_type (m_chat message) = Some (lit "private") →
  m_text message = Some body →
  first_name (m_chat message) = None →
  db_ok w 0%nat = true →
  let chat := chat_id (m_chat message) in
  let w' := snd (telegram_webhook cfg data w) in
  messages w ++ [{| sender_id := str_of_int chat; sender_name := lit "Unknown";
                    text := body; timestamp := clock w 0%nat;
                    media_type := None; media_url := None |}]
  `prefix_of` messages w'
  ∧ wire w ++ [(SendMessage (IdStr (FORWARD_TO_ID cfg))
                            (forward_text (lit "Unknown") (str_of_int chat) body),
                net w 0%nat)]
    `prefix_of` wire w'.
Proof.
  intros Hmsg Hreply Hprivate Htext Hname Hdb chat w'. subst chat w'.
  unfold telegram_webhook.
  rewrite Hmsg. cbn zeta. rewrite webhook_dispatch_false by done.
  rewrite Hprivate, Htext, Hname. rewrite bool_decide_true by done.
  unfold bind, ret, logging. simpl. set (w1 := mkWorld _ _ _ _ _ _ _ _).
  pose proof (handle_text_message_prefix cfg (chat_id (m_chat message)) (lit "Unknown")
                body w1 Hdb) as [Hrows Hwire].
  destruct (handle_text_message _ _ _ _ w1) as [[[]|e] w2]; simpl in *; [|done].
  pose proof (grows_handle_auto_reply cfg (chat_id (m_chat message)) w2)
    as (Hgm & Hgw & _).
  destruct (handle_auto_reply _ _ w2) as [[[]|e] w3]; simpl in *; split; by etrans.
Qed.

Lemma telegram_webhook_unknown_sender_witness :
  let data := {| u_message := Some
       {| m_chat := {| chat_id := 111; first_name := None;
                       chat_type := Some (lit "private") |};
          m_text := Some (lit "hi"); m_photo := None; m_caption := None;
          m_reply_to_message := None |} |} in
  [{| sender_id := lit "111"; sender_name := lit "Unknown"; text := lit "hi";
      timestamp := 0; media_type := None; media_url := None |}]
  `prefix_of` messages (snd (telegram_webhook demo_cfg data quiet_world)).
Proof.
  intros data.
  destruct (telegram_webhook_unknown_sender demo_cfg data _ (lit "hi") quiet_world eq_refl)
    as [Hrows _]; try reflexivity; [intros [Hop _]; discriminate Hop | exact Hrows].
Defined.
